(** * putput: the expansion engine of [putput/generator.py]

    A shallow embedding of the range expander, the group expander, the
    combo computer, the utterance materializer and the token pattern
    resolver, followed by the properties established about them.

    Python tuples and lists are [list]s, dicts are [gmap]s with string
    keys, [int]s coming from the range parser are [Z], indices and lengths
    are [nat].  Exceptions and unbounded recursion are explicit in the
    result type [outcome]. *)

From Stdlib Require Import ZArith String List Lia.
From stdpp Require Import base option list strings gmap fin_maps.

Local Open Scope string_scope.
Local Open Scope list_scope.
Local Open Scope nat_scope.

(** ** Results of fallible, possibly non-terminating code *)

Inductive exn : Type :=
  | KeyError (key : string)
  | IndexError.

Inductive outcome (A : Type) : Type :=
  | Ok (a : A)
  | Raise (e : exn)
  | OutOfFuel.

Arguments Ok {A} a.
Arguments Raise {A} e.
Arguments OutOfFuel {A}.

Definition outcome_bind {A B} (f : A → outcome B) (m : outcome A) : outcome B :=
  match m with
  | Ok a => f a
  | Raise e => Raise e
  | OutOfFuel => OutOfFuel
  end.

Notation "x <- m ;; k" := (outcome_bind (λ x, k) m)
  (at level 100, m at next level, right associativity,
   format "'[v' x  <-  m  ;;  '/' k ']'").

(** ** Python primitives used by the module *)

(** [l[i]] for a non-negative index. *)
Definition py_index {A} (l : list A) (i : nat) : outcome A :=
  match l !! i with
  | Some x => Ok x
  | None => Raise IndexError
  end.

(** [d[k]] on a dict with string keys. *)
Definition py_getitem {V} (d : gmap string V) (k : string) : outcome V :=
  match d !! k with
  | Some v => Ok v
  | None => Raise (KeyError k)
  end.

(** [l[i:j] = r] for non-negative [i], [j]. *)
Definition slice_assign {A} (l : list A) (i j : nat) (r : list A) : list A :=
  take i l ++ r ++ drop (i `max` j) l.

(** [range(lo, hi)]. *)
Definition py_range (lo hi : Z) : list Z := seqZ lo (hi - lo).

(** [[x] * n]: a negative [n] gives the empty list. *)
Definition py_repeat {A} (x : A) (n : Z) : list A := replicate (Z.to_nat n) x.

(** The index of the first element satisfying [p], as in
    [for index, x in enumerate(l): if p(x): return index]. *)
Definition first_index {A} (p : A → bool) (l : list A) : option nat :=
  fst <$> list_find (λ x, p x = true) l.

(** ** Types of [putput.types] and of the module *)

Abbreviation UTTERANCE_PATTERN := (list string).
Abbreviation GROUP := (string * nat)%type.
Abbreviation TOKEN_PATTERN := (list (list string)).
Abbreviation COMBO := (list (list string)).
Abbreviation TOKEN_HANDLER := (string → string → string).

(** ** The range syntax of [putput.validator]

    [RANGE_REGEX] and [parse_range_token] live in [putput/validator.py];
    the expansion engine only uses them through this interface:
    [range_regex_match token] is the truth value of
    [re.match(RANGE_REGEX, token)], and [parse_range_token] returns the pair
    (minimum or [None], maximum). *)

Class RangeSyntax : Type := {
  range_regex_match : string → bool;
  parse_range_token : string → option Z * Z
}.

(** ** Range expander *)

Section ranges.
Context `{RangeSyntax}.

Definition _get_regex_match_index (utterance_pattern : UTTERANCE_PATTERN)
  : option nat :=
  first_index range_regex_match utterance_pattern.

Definition _any_patterns_match_regex (utterance_patterns : list UTTERANCE_PATTERN)
  : bool :=
  existsb (λ up, bool_decide (is_Some (_get_regex_match_index up)))
          utterance_patterns.

(** The body of the [for utterance_pattern in utterance_patterns] loop of
    [_handle_ranges]: the patterns appended for one utterance pattern. *)
Definition handle_ranges_pattern (utterance_pattern : UTTERANCE_PATTERN)
  : outcome (list UTTERANCE_PATTERN) :=
  match _get_regex_match_index utterance_pattern with
  | Some (S _ as match_index) =>
      token <- py_index utterance_pattern match_index ;;
      previous_token <- py_index utterance_pattern (match_index - 1) ;;
      match parse_range_token token with
      | (Some min_range, max_range) =>
          Ok ((λ range_value,
                 slice_assign utterance_pattern (match_index - 1) (match_index + 1)
                              (py_repeat previous_token range_value))
                <$> py_range min_range max_range)
      | (None, max_range) =>
          Ok [slice_assign utterance_pattern (match_index - 1) (match_index + 1)
                           (py_repeat previous_token max_range)]
      end
  | _ => Ok [utterance_pattern]
  end.

(** The whole loop, accumulating [handled_utterance_patterns]. *)
Fixpoint handle_ranges_loop (utterance_patterns : list UTTERANCE_PATTERN)
  : outcome (list UTTERANCE_PATTERN) :=
  match utterance_patterns with
  | [] => Ok []
  | utterance_pattern :: rest =>
      here <- handle_ranges_pattern utterance_pattern ;;
      there <- handle_ranges_loop rest ;;
      Ok (here ++ there)
  end.

(** [_handle_ranges]; [fuel] bounds the depth of the recursion. *)
Fixpoint _handle_ranges (fuel : nat) (utterance_patterns : list UTTERANCE_PATTERN)
  : outcome (list UTTERANCE_PATTERN) :=
  if negb (_any_patterns_match_regex utterance_patterns)
  then Ok utterance_patterns
  else match fuel with
       | 0 => OutOfFuel
       | S fuel' =>
           handled_utterance_patterns <- handle_ranges_loop utterance_patterns ;;
           _handle_ranges fuel' handled_utterance_patterns
       end.
End ranges.

(** ** The pattern definition

    The document returned by [_load_pattern_def], after validation.  The
    optional keys [base_tokens] and [groups] are [None] when absent; an
    element of either is a single-entry mapping, kept as its (name, pattern)
    pair.  A component of a token pattern is either the name of a base token
    (a [str]) or a sequence of phrases. *)

Inductive component : Type :=
  | BaseToken (name : string)
  | Phrases (phrases : list string).

Record token_type_map : Type := {
  static : option (list (list (string * list (list component))));
  dynamic : option (list string)
}.

Record pattern_def : Type := {
  utterance_patterns : list UTTERANCE_PATTERN;
  token_patterns : list token_type_map;
  base_tokens : option (list (string * list string));
  groups : option (list (string * list string))
}.

(** [pattern_def[base_key]] for the two keys holding base items. *)
Definition pattern_def_items (pd : pattern_def) (base_key : string)
  : outcome (list (string * list string)) :=
  let entry :=
    if String.eqb base_key "base_tokens" then base_tokens pd
    else if String.eqb base_key "groups" then groups pd
    else None in
  match entry with
  | Some items => Ok items
  | None => Raise (KeyError base_key)
  end.

(** A dict built from (key, value) pairs in order: a later pair overrides
    an earlier one with the same key. *)
Definition dict_of_items {V} (items : list (string * V)) : gmap string V :=
  list_to_map (reverse items).

Definition _get_base_item_map (pd : pattern_def) (base_key : string)
  : outcome (gmap string (list string)) :=
  items <- pattern_def_items pd base_key ;;
  Ok (dict_of_items items).

(** The loop of a comprehension whose element expression may fail. *)
Fixpoint traverse {A B} (f : A → outcome B) (l : list A) : outcome (list B) :=
  match l with
  | [] => Ok []
  | x :: l' =>
      y <- f x ;;
      ys <- traverse f l' ;;
      Ok (y :: ys)
  end.

(** [{k: f(v) for k, v in d.items()}].  The order in which the items are
    visited only decides which failure is reported when several values
    fail. *)
Definition dict_traverse {A B} (f : A → outcome B) (d : gmap string A)
  : outcome (gmap string B) :=
  items <- traverse (λ kv : string * A, v <- f kv.2 ;; Ok (kv.1, v))
                    (map_to_list d) ;;
  Ok (list_to_map items).

(** ** Group expander *)

Definition default_groups (utterance_patterns : list UTTERANCE_PATTERN)
  : list (list GROUP) :=
  (λ utterance_pattern : UTTERANCE_PATTERN,
     (λ _ : string, ("None", 1)) <$> utterance_pattern)
    <$> utterance_patterns.

Section groups.
Context `{RangeSyntax}.
Implicit Types expanded_group_map : gmap string (list UTTERANCE_PATTERN).

Definition _get_map_match_index (utterance_pattern : UTTERANCE_PATTERN)
    expanded_group_map : option nat :=
  first_index (λ token, bool_decide (is_Some (expanded_group_map !! token)))
              utterance_pattern.

Definition _any_pattern_token_in_group_map
    (utterance_patterns : list UTTERANCE_PATTERN) expanded_group_map : bool :=
  existsb (λ up, bool_decide (is_Some (_get_map_match_index up expanded_group_map)))
          utterance_patterns.

(** The [while] loop of [_get_current_group_index]; [rest] is
    [groups[cur_index:]], so that [groups[cur_index]] is its head and
    fails when [rest] is empty. *)
Fixpoint current_group_index_loop (token_index cur_index cur_sum : nat)
    (rest : list GROUP) {struct rest} : outcome nat :=
  if cur_sum <? token_index then
    match rest with
    | [] => Raise IndexError
    | group :: rest' =>
        current_group_index_loop token_index (cur_index + 1)
                                 (cur_sum + group.2) rest'
    end
  else Ok cur_index.

Definition _get_current_group_index (token_index : nat) (groups : list GROUP)
  : outcome nat :=
  current_group_index_loop token_index 0 0 groups.

(** The body of the [for ... in zip(...)] loop of
    [_expand_groups_recursive]: what is appended to the two accumulators
    for one utterance pattern and its groups. *)
Definition expand_groups_pattern (utterance_pattern : UTTERANCE_PATTERN)
    (groups : list GROUP) expanded_group_map
  : outcome (list UTTERANCE_PATTERN * list (list GROUP)) :=
  match _get_map_match_index utterance_pattern expanded_group_map with
  | Some index =>
      token <- py_index utterance_pattern index ;;
      group_index <- _get_current_group_index index groups ;;
      group_patterns <- py_getitem expanded_group_map token ;;
      Ok ((λ group_pattern,
             slice_assign utterance_pattern index (index + 1) group_pattern)
            <$> group_patterns,
          (λ group_pattern : UTTERANCE_PATTERN,
             slice_assign groups group_index (group_index + 1)
                          [(token, length group_pattern)])
            <$> group_patterns)
  | None => Ok ([utterance_pattern], [groups])
  end.

Fixpoint expand_groups_loop (utterance_patterns : list UTTERANCE_PATTERN)
    (utterance_patterns_groups : list (list GROUP)) expanded_group_map
  : outcome (list UTTERANCE_PATTERN * list (list GROUP)) :=
  match utterance_patterns, utterance_patterns_groups with
  | utterance_pattern :: ups, groups :: gps =>
      here <- expand_groups_pattern utterance_pattern groups expanded_group_map ;;
      there <- expand_groups_loop ups gps expanded_group_map ;;
      Ok (here.1 ++ there.1, here.2 ++ there.2)
  | _, _ => Ok ([], [])
  end.

Fixpoint _expand_groups_recursive (fuel : nat)
    (utterance_patterns : list UTTERANCE_PATTERN)
    (utterance_patterns_groups : list (list GROUP)) expanded_group_map
  : outcome (list UTTERANCE_PATTERN * list (list GROUP)) :=
  if negb (_any_pattern_token_in_group_map utterance_patterns expanded_group_map)
  then Ok (utterance_patterns, utterance_patterns_groups)
  else match fuel with
       | 0 => OutOfFuel
       | S fuel' =>
           expanded <- expand_groups_loop utterance_patterns
                                          utterance_patterns_groups
                                          expanded_group_map ;;
           _expand_groups_recursive fuel' expanded.1 expanded.2 expanded_group_map
       end.

Definition _expand_groups (fuel : nat) (pd : pattern_def)
    (utterance_patterns : list UTTERANCE_PATTERN)
  : outcome (list UTTERANCE_PATTERN * list (list GROUP)) :=
  match groups pd with
  | Some _ =>
      group_map <- _get_base_item_map pd "groups" ;;
      expanded_group_map <-
        dict_traverse (λ pattern, _handle_ranges fuel [pattern]) group_map ;;
      _expand_groups_recursive fuel utterance_patterns
                               (default_groups utterance_patterns)
                               expanded_group_map
  | None => Ok (utterance_patterns, default_groups utterance_patterns)
  end.
End groups.

(** ** Token pattern resolver *)

Abbreviation TOKEN_PATTERNS_MAP := (gmap string (list TOKEN_PATTERN)).
Abbreviation TOKEN_HANDLER_MAP := (gmap string TOKEN_HANDLER).

(** [d.update(other)]: every item of [other] is stored into [d]. *)
Definition dict_update {V} (d other : gmap string V) : gmap string V :=
  map_fold (λ k v acc, <[k:=v]> acc) d other.

(** [tuple(phrases)]: a [str] is turned into the tuple of its characters. *)
Definition tuple_of_component (c : component) : list string :=
  match c with
  | BaseToken name => (λ ch, String ch EmptyString) <$> list_ascii_of_string name
  | Phrases phrases => phrases
  end.

Definition _convert_token_patterns_to_tuples (token_patterns : list (list component))
  : list TOKEN_PATTERN :=
  (λ token_pattern : list component, tuple_of_component <$> token_pattern)
    <$> token_patterns.

Definition _expand_base_tokens (pd : pattern_def)
    (token_patterns : list (list component)) : outcome (list (list component)) :=
  base_token_map <- _get_base_item_map pd "base_tokens" ;;
  traverse
    (traverse (λ c : component,
                 match c with
                 | BaseToken name =>
                     phrases <- py_getitem base_token_map name ;;
                     Ok (Phrases phrases)
                 | Phrases _ => Ok c
                 end))
    token_patterns.

Definition _process_static_token_patterns (pd : pattern_def)
    (token_patterns : list (list component)) : outcome (list TOKEN_PATTERN) :=
  token_patterns <-
    match base_tokens pd with
    | Some _ => _expand_base_tokens pd token_patterns
    | None => Ok token_patterns
    end ;;
  Ok (_convert_token_patterns_to_tuples token_patterns).

(** The (token, token patterns) items visited by the comprehension of
    [_get_static_token_patterns_map], in order. *)
Definition static_items (pd : pattern_def)
  : list (string * list (list component)) :=
  concat ((λ m : token_type_map,
             match static m with
             | Some static_token_patterns_maps => concat static_token_patterns_maps
             | None => []
             end) <$> token_patterns pd).

Definition _get_static_token_patterns_map (pd : pattern_def)
  : outcome TOKEN_PATTERNS_MAP :=
  entries <- traverse (λ kv : string * list (list component),
                         v <- _process_static_token_patterns pd kv.2 ;;
                         Ok (kv.1, v))
                      (static_items pd) ;;
  Ok (dict_of_items entries).

Definition _get_token_patterns_map (pd : pattern_def)
    (dynamic_token_patterns_map : option TOKEN_PATTERNS_MAP)
  : outcome TOKEN_PATTERNS_MAP :=
  let token_patterns_map : TOKEN_PATTERNS_MAP := ∅ in
  static_token_patterns_map <- _get_static_token_patterns_map pd ;;
  let token_patterns_map := dict_update token_patterns_map static_token_patterns_map in
  let token_patterns_map :=
    dict_update token_patterns_map (default ∅ dynamic_token_patterns_map) in
  Ok token_patterns_map.

(** ** Combo computer *)

(** Modelled from the spec: [join_combo] of [putput/joiner.py], which is not
    part of the sources at hand, called without [combo_options].  The spec
    describes it as the cross product of the per-position ranges, one
    element per position; the first position varies slowest. *)
Fixpoint join_combo {A} (combo : list (list A)) : list (list A) :=
  match combo with
  | [] => [[]]
  | component :: rest =>
      concat ((λ x, (λ r, x :: r) <$> join_combo rest) <$> component)
  end.

(** [' '.join(words)]. *)
Definition join_space (words : list string) : string := String.concat " " words.

(** The [lru_cache] only memoises this pure function. *)
Definition _expand_token_pattern (token_pattern : TOKEN_PATTERN) : list string :=
  join_space <$> join_combo token_pattern.

(** Token patterns taken from the token patterns map hold sequences of
    phrases only, which is how they are handed to the conversion here. *)
Definition _compute_utterance_combo (expanded_utterance_pattern : list (list TOKEN_PATTERN))
  : COMBO :=
  (λ token_patterns : list TOKEN_PATTERN,
     let hashable_token_patterns :=
       _convert_token_patterns_to_tuples
         ((λ tp : TOKEN_PATTERN, Phrases <$> tp) <$> token_patterns) in
     let expanded_token_patterns := _expand_token_pattern <$> hashable_token_patterns in
     concat expanded_token_patterns)
    <$> expanded_utterance_pattern.

(** ** Utterance materializer *)

Definition default_token_handler : TOKEN_HANDLER :=
  λ token phrase, String.append "[" (String.append token
                    (String.append "(" (String.append phrase ")]"))).

(** Truth value of a dict: it is non-empty. *)
Definition dict_truthy {V} (d : gmap string V) : bool :=
  match map_to_list d with
  | [] => false
  | _ :: _ => true
  end.

(** [a or b] where [a] is [None] or a function object, which is truthy. *)
Definition py_or {X} (a : option X) (b : X) : X :=
  match a with
  | Some x => x
  | None => b
  end.

Definition _get_token_handler (token : string)
    (token_handler_map : option TOKEN_HANDLER_MAP) : TOKEN_HANDLER :=
  match token_handler_map with
  | Some m =>
      if dict_truthy m
      then py_or (m !! token) (py_or (m !! "DEFAULT") default_token_handler)
      else default_token_handler
  | None => default_token_handler
  end.

(** The loop runs over [zip(utterance_combo, tokens)]. *)
Definition _compute_handled_token_combo (utterance_combo : COMBO)
    (tokens : list string) (token_handler_map : option TOKEN_HANDLER_MAP) : COMBO :=
  zip_with (λ (utterance_component : list string) (token : string),
              (λ phrase, _get_token_handler token token_handler_map token phrase)
                <$> utterance_component)
           utterance_combo tokens.

(** The inner loop of [generate_utterances_and_handled_tokens], over
    [zip(utterance_combo, handled_token_combo, indices)]. *)
Fixpoint select_components (utterance_combo handled_token_combo : COMBO)
    (indices : list nat) : outcome (list string * list string) :=
  match utterance_combo, handled_token_combo, indices with
  | utterance_component :: uc, token_component :: hc, index :: rest =>
      u <- py_index utterance_component index ;;
      t <- py_index token_component index ;;
      more <- select_components uc hc rest ;;
      Ok (u :: more.1, t :: more.2)
  | _, _, _ => Ok ([], [])
  end.

(** The outer loop of [generate_utterances_and_handled_tokens]: the pairs
    yielded, in order, for the index tuples produced by the joiner. *)
Definition materialize (utterance_combo handled_token_combo : COMBO)
    (index_tuples : list (list nat)) : outcome (list (string * list string)) :=
  traverse (λ indices,
              selected <- select_components utterance_combo handled_token_combo indices ;;
              Ok (join_space selected.1, selected.2))
           index_tuples.

(** The pairs yielded, in order, when [combo_options] is left out. *)
Definition generate_utterances_and_handled_tokens (utterance_combo : COMBO)
    (tokens : list string) (token_handler_map : option TOKEN_HANDLER_MAP)
  : outcome (list (string * list string)) :=
  let handled_token_combo :=
    _compute_handled_token_combo utterance_combo tokens token_handler_map in
  let combo_indices :=
    (λ component : list string, seq 0 (length component)) <$> utterance_combo in
  materialize utterance_combo handled_token_combo (join_combo combo_indices).

(** ** First entry point, from the loaded and validated pattern definition *)

Section entry.
Context `{RangeSyntax}.

Definition generate_utterance_combo_tokens_and_groups (fuel : nat)
    (pd : pattern_def) (dynamic_token_patterns_map : option TOKEN_PATTERNS_MAP)
  : outcome (list (COMBO * list string * list GROUP)) :=
  token_patterns_map <- _get_token_patterns_map pd dynamic_token_patterns_map ;;
  ups <- _handle_ranges fuel (utterance_patterns pd) ;;
  expanded <- _expand_groups fuel pd ups ;;
  traverse (λ pg : UTTERANCE_PATTERN * list GROUP,
              expanded_utterance_pattern <-
                traverse (py_getitem token_patterns_map) pg.1 ;;
              Ok (_compute_utterance_combo expanded_utterance_pattern, pg.1, pg.2))
           (zip expanded.1 expanded.2).
End entry.

(** ** Sample data

    Modelled from the spec: an instance of the range syntax that knows the
    two range tokens of the spec's scenarios, written as the spec writes
    them: [RANGE(3)], a fixed count with bound 3 and no minimum, and
    [RANGE(2,4)], a bounded range with bounds (2, 4).  The recogniser and
    the parser themselves are in [putput/validator.py], which is not among
    the sources. *)

#[local] Instance scenario_syntax : RangeSyntax := {|
  range_regex_match token :=
    String.eqb token "RANGE(3)" || String.eqb token "RANGE(2,4)";
  parse_range_token token :=
    if String.eqb token "RANGE(2,4)" then (Some 2%Z, 4%Z) else (None, 3%Z)
|}.

(** The grammar of the spec's end-to-end scenario. *)
Definition hi_grammar : pattern_def := {|
  utterance_patterns := [["A"; "B"]];
  token_patterns :=
    [ {| static := Some [ [("A", [[Phrases ["hi"]]])];
                          [("B", [[Phrases ["there"]]; [Phrases ["world"]]])] ];
         dynamic := None |} ];
  base_tokens := None;
  groups := None
|}.

(** A grammar whose group [G] is defined with the group [H]. *)
Definition nested_grammar : pattern_def := {|
  utterance_patterns := [["G"]];
  token_patterns := [];
  base_tokens := None;
  groups := Some [("G", ["H"; "Q"]); ("H", ["P"; "R"])]
|}.

(** A grammar with one group, used by the first utterance pattern only. *)
Definition grouped_grammar : pattern_def := {|
  utterance_patterns := [["G"]; ["A"; "B"]];
  token_patterns := [];
  base_tokens := None;
  groups := Some [("G", ["P"; "Q"])]
|}.

(** A grammar whose token [START] is written with the base token
    [PRONOUNS]. *)
Definition base_grammar : pattern_def := {|
  utterance_patterns := [["START"; "RANGE(3)"]];
  token_patterns :=
    [ {| static := Some [ [("START", [[BaseToken "PRONOUNS"; Phrases ["went"]]])] ];
         dynamic := None |} ];
  base_tokens := Some [("PRONOUNS", ["he"; "she"])];
  groups := None
|}.

(** ** Predicates used in the statements *)

(** No token of the pattern matches the range syntax. *)
Definition range_free `{RangeSyntax} (utterance_pattern : UTTERANCE_PATTERN) : Prop :=
  Forall (λ token, range_regex_match token = false) utterance_pattern.

(** The range token asks for at least one copy, whatever value is taken. *)
Definition repeats_at_least_once `{RangeSyntax} (token : string) : Prop :=
  match parse_range_token token with
  | (Some min_range, _) => (1 ≤ min_range)%Z
  | (None, max_range) => (1 ≤ max_range)%Z
  end.

(** The pattern does not start with a range token, and none of its range
    tokens allows zero copies. *)
Definition expandable `{RangeSyntax} (utterance_pattern : UTTERANCE_PATTERN) : Prop :=
  (∀ token, head utterance_pattern = Some token → range_regex_match token = false) ∧
  Forall (λ token, range_regex_match token = true → repeats_at_least_once token)
         utterance_pattern.

(** The number of range tokens of the pattern. *)
Definition range_tokens `{RangeSyntax} (utterance_pattern : UTTERANCE_PATTERN) : nat :=
  length (filter (λ token, range_regex_match token = true) utterance_pattern).

(** The pattern obtained from [up] by replacing the tokens at [i - 1] and
    [i] with [v] copies of [prev]. *)
Definition with_copies (up : UTTERANCE_PATTERN) (i : nat) (prev : string) (v : Z)
  : UTTERANCE_PATTERN :=
  take (i - 1) up ++ replicate (Z.to_nat v) prev ++ drop (i + 1) up.

(** The sum of the spans of a group sequence. *)
Definition span_sum (groups : list GROUP) : nat := sum_list_with snd groups.

(** The group sequence covers the pattern: the spans add up to the number
    of tokens. *)
Definition spans_cover (utterance_pattern : UTTERANCE_PATTERN)
    (groups : list GROUP) : Prop :=
  span_sum groups = length utterance_pattern.

(** One [("None", 1)] entry per token. *)
Definition default_group_sequence (utterance_pattern : UTTERANCE_PATTERN)
  : list GROUP :=
  replicate (length utterance_pattern) ("None", 1).

(** No group pattern of the map is empty or holds a group name. *)
Definition flat_group_map (gm : gmap string (list UTTERANCE_PATTERN)) : Prop :=
  ∀ name group_patterns group_pattern,
    gm !! name = Some group_patterns → group_pattern ∈ group_patterns →
    group_pattern ≠ [] ∧ Forall (λ token, gm !! token = None) group_pattern.

(** The group sequence splits the pattern into consecutive chunks, one per
    entry and of the length of its span; a chunk is either a single token
    or the non-empty pattern of an expanded group, without group name. *)
Inductive aligned (gm : gmap string (list UTTERANCE_PATTERN))
  : UTTERANCE_PATTERN → list GROUP → Prop :=
  | aligned_nil : aligned gm [] []
  | aligned_token token name up groups :
      aligned gm up groups → aligned gm (token :: up) ((name, 1) :: groups)
  | aligned_group chunk name up groups :
      chunk ≠ [] → Forall (λ token, gm !! token = None) chunk →
      aligned gm up groups →
      aligned gm (chunk ++ up) ((name, length chunk) :: groups).

(** The number of tokens of the pattern that are group names. *)
Definition group_tokens (gm : gmap string (list UTTERANCE_PATTERN))
    (utterance_pattern : UTTERANCE_PATTERN) : nat :=
  length (filter (λ token, is_Some (gm !! token)) utterance_pattern).

(** The phrases a component stands for, given the base token map. *)
Definition resolve_component (base_token_map : gmap string (list string))
    (c : component) : list string :=
  match c with
  | BaseToken name => default [] (base_token_map !! name)
  | Phrases phrases => phrases
  end.

(** The element expression of the comprehension of [_expand_base_tokens]. *)
Definition expand_component (base_token_map : gmap string (list string))
    (c : component) : outcome component :=
  match c with
  | BaseToken name =>
      phrases <- py_getitem base_token_map name ;;
      Ok (Phrases phrases)
  | Phrases _ => Ok c
  end.

(** Every base token named in the token patterns is declared. *)
Definition base_tokens_declared (names : list string)
    (token_patterns : list (list component)) : Prop :=
  Forall (Forall (λ c, ∀ name, c = BaseToken name → name ∈ names)) token_patterns.

(** The phrases at the given indices, position by position. *)
Definition selected_phrases (combo : COMBO) (indices : list nat) : list string :=
  zip_with (λ (component : list string) index, default "" (component !! index))
           combo indices.

(** The handled tokens of the given phrases, position by position. *)
Definition handled_phrases (tokens : list string)
    (token_handler_map : option TOKEN_HANDLER_MAP) (phrases : list string)
  : list string :=
  zip_with (λ token phrase, _get_token_handler token token_handler_map token phrase)
           tokens phrases.

(** Every index of the tuple is within its component. *)
Definition indices_in_range (combo : COMBO) (indices : list nat) : Prop :=
  Forall2 (λ (component : list string) index, index < length component)
          combo indices.

(** * Properties *)

(** ** Generic facts about the primitives *)

Lemma first_index_Some {A} (p : A → bool) (l : list A) (i : nat) :
  first_index p l = Some i ↔
  ∃ x, l !! i = Some x ∧ p x = true ∧
       ∀ j y, l !! j = Some y → j < i → p y = false.
Proof.
  unfold first_index. rewrite fmap_Some. split.
  - intros [[j x] [Hfind ->]]. apply list_find_Some in Hfind as (Hl & Hp & Hbefore).
    exists x. repeat split; [done..|].
    intros k y Hk Hlt. specialize (Hbefore k y Hk Hlt).
    by destruct (p y).
  - intros (x & Hl & Hp & Hbefore). exists (i, x). split; [|done].
    apply list_find_Some. repeat split; [done..|].
    intros k y Hk Hlt. rewrite (Hbefore k y Hk Hlt). discriminate.
Qed.

Lemma first_index_None {A} (p : A → bool) (l : list A) :
  first_index p l = None ↔ Forall (λ x, p x = false) l.
Proof.
  unfold first_index. rewrite fmap_None, list_find_None.
  apply Forall_iff. intros x. destruct (p x); naive_solver.
Qed.

Lemma first_index_cons_true {A} (p : A → bool) (x : A) (l : list A) :
  p x = true → first_index p (x :: l) = Some 0.
Proof.
  intros Hp. apply first_index_Some. exists x. repeat split; [done|]. lia.
Qed.

Lemma first_index_lt {A} (p : A → bool) (l : list A) (i : nat) :
  first_index p l = Some i → i < length l.
Proof.
  intros (x & Hl & _)%first_index_Some. by eapply lookup_lt_Some.
Qed.

Lemma existsb_false_Forall {A} (p : A → bool) (l : list A) :
  existsb p l = false ↔ Forall (λ x, p x = false) l.
Proof.
  induction l as [|x l IH]; simpl.
  - split; [constructor|done].
  - rewrite orb_false_iff, Forall_cons, IH. done.
Qed.

Lemma existsb_true_elem {A} (p : A → bool) (l : list A) (x : A) :
  x ∈ l → p x = true → existsb p l = true.
Proof.
  intros Hin Hp. apply existsb_exists. exists x. split; [|done].
  by apply list_elem_of_In.
Qed.

Lemma slice_assign_length {A} (l r : list A) (i j : nat) :
  i ≤ j → j ≤ length l →
  length (slice_assign l i j r) + (j - i) = length l + length r.
Proof.
  intros Hij Hj. unfold slice_assign.
  rewrite !length_app, length_take, length_drop. lia.
Qed.

Lemma py_index_Ok {A} (l : list A) (i : nat) (x : A) :
  l !! i = Some x → py_index l i = Ok x.
Proof. unfold py_index. by intros ->. Qed.

Lemma traverse_Ok_length {A B} (f : A → outcome B) (l : list A) (r : list B) :
  traverse f l = Ok r → length r = length l.
Proof.
  revert r. induction l as [|x l IH]; intros r; simpl.
  - by intros [= <-].
  - destruct (f x) as [y| |]; simpl; [|done..].
    destruct (traverse f l) as [ys| |]; simpl; [|done..].
    intros [= <-]. simpl. by rewrite (IH ys).
Qed.

(** ** Range expander *)

Section range_facts.
Context `{RangeSyntax}.

Lemma regex_match_index_None up :
  _get_regex_match_index up = None ↔ range_free up.
Proof. apply first_index_None. Qed.

Lemma any_patterns_match_regex_false ups :
  _any_patterns_match_regex ups = false ↔ Forall range_free ups.
Proof.
  unfold _any_patterns_match_regex. rewrite existsb_false_Forall.
  apply Forall_iff. intros up. rewrite bool_decide_eq_false.
  rewrite <- regex_match_index_None, eq_None_not_Some. done.
Qed.

Lemma handle_ranges_unfold fuel ups :
  _handle_ranges fuel ups =
  if negb (_any_patterns_match_regex ups) then Ok ups
  else match fuel with
       | 0 => OutOfFuel
       | S fuel' => r <- handle_ranges_loop ups ;; _handle_ranges fuel' r
       end.
Proof. by destruct fuel. Qed.

Lemma handle_ranges_no_match fuel ups :
  Forall range_free ups → _handle_ranges fuel ups = Ok ups.
Proof.
  intros Hfree%any_patterns_match_regex_false.
  destruct fuel; simpl; by rewrite Hfree.
Qed.

(** A pass over a pattern never raises. *)
Lemma handle_ranges_pattern_total up :
  ∃ r, handle_ranges_pattern up = Ok r.
Proof.
  unfold handle_ranges_pattern.
  destruct (_get_regex_match_index up) as [[|k]|] eqn:Hidx; [by eexists| |by eexists].
  pose proof Hidx as (token & Htok & _)%first_index_Some.
  assert (is_Some (up !! (S k - 1))) as [prev Hprev].
  { apply lookup_lt_is_Some. apply lookup_lt_Some in Htok. lia. }
  rewrite (py_index_Ok _ _ _ Htok), (py_index_Ok _ _ _ Hprev). simpl.
  destruct (parse_range_token token) as [[lo|] hi]; by eexists.
Qed.

Lemma handle_ranges_loop_total ups :
  ∃ r, handle_ranges_loop ups = Ok r.
Proof.
  induction ups as [|up ups [r IH]]; simpl; [by eexists|].
  destruct (handle_ranges_pattern_total up) as [r0 ->]. simpl.
  rewrite IH. simpl. by eexists.
Qed.

Lemma handle_ranges_loop_app ups1 ups2 r1 r2 :
  handle_ranges_loop ups1 = Ok r1 → handle_ranges_loop ups2 = Ok r2 →
  handle_ranges_loop (ups1 ++ ups2) = Ok (r1 ++ r2).
Proof.
  revert r1. induction ups1 as [|up ups1 IH]; intros r1; simpl.
  - by intros [= <-] ->.
  - destruct (handle_ranges_pattern up) as [r0| |]; simpl; [|done..].
    destruct (handle_ranges_loop ups1) as [r1'| |]; simpl; [|done..].
    intros [= <-] H2. rewrite (IH r1' eq_refl H2). simpl.
    by rewrite app_assoc.
Qed.

(** A pattern that starts with a range token is appended unchanged. *)
Lemma handle_ranges_pattern_range_first token rest :
  range_regex_match token = true →
  handle_ranges_pattern (token :: rest) = Ok [token :: rest].
Proof.
  intros Hm. unfold handle_ranges_pattern, _get_regex_match_index.
  by rewrite first_index_cons_true.
Qed.

Lemma handle_ranges_loop_keeps_range_first token rest ups r :
  range_regex_match token = true → (token :: rest) ∈ ups →
  handle_ranges_loop ups = Ok r → (token :: rest) ∈ r.
Proof.
  intros Hm Hin. revert r.
  induction ups as [|up ups IH]; intros r; [by apply elem_of_nil in Hin|].
  simpl. destruct (handle_ranges_pattern up) as [r0| |] eqn:Hup; simpl; [|done..].
  destruct (handle_ranges_loop ups) as [r1| |]; simpl; [|done..].
  intros [= <-]. apply elem_of_app.
  apply elem_of_cons in Hin as [<-|Hin].
  - left. rewrite handle_ranges_pattern_range_first in Hup by done.
    injection Hup as <-. apply list_elem_of_singleton. done.
  - right. by apply IH.
Qed.
End range_facts.

Section range_claims.
Context `{RangeSyntax}.

Lemma first_index_take {A} (p : A → bool) (l : list A) (i : nat) :
  first_index p l = Some i → Forall (λ x, p x = false) (take i l).
Proof.
  intros (x & _ & _ & Hbefore)%first_index_Some.
  apply Forall_lookup. intros j y [Hj Hlt]%lookup_take_Some. by eapply Hbefore.
Qed.

Lemma any_patterns_match_regex_elem up ups i :
  up ∈ ups → _get_regex_match_index up = Some i →
  _any_patterns_match_regex ups = true.
Proof.
  intros Hin Hidx. eapply existsb_true_elem; [done|].
  apply bool_decide_eq_true. by rewrite Hidx.
Qed.

Lemma slice_assign_with_copies (up : UTTERANCE_PATTERN) i prev v :
  0 < i →
  slice_assign up (i - 1) (i + 1) (py_repeat prev v) = with_copies up i prev v.
Proof.
  intros Hpos. unfold with_copies, slice_assign, py_repeat.
  by replace ((i - 1) `max` (i + 1)) with (i + 1) by lia.
Qed.

(** One pass over a pattern whose first range token is bounded. *)
Lemma handle_ranges_pattern_bounded up i token prev lo hi :
  _get_regex_match_index up = Some i → 0 < i →
  up !! i = Some token → up !! (i - 1) = Some prev →
  parse_range_token token = (Some lo, hi) →
  handle_ranges_pattern up = Ok (with_copies up i prev <$> py_range lo hi).
Proof.
  intros Hidx Hpos Htok Hprev Hparse. unfold handle_ranges_pattern.
  rewrite Hidx. destruct i as [|k]; [lia|]. cbv beta iota.
  rewrite (py_index_Ok _ _ _ Htok), (py_index_Ok _ _ _ Hprev).
  cbn [outcome_bind]. rewrite Hparse. f_equal.
  apply list_fmap_ext. intros _ v _. apply slice_assign_with_copies. lia.
Qed.

(** One pass over a pattern whose first range token is a fixed count. *)
Lemma handle_ranges_pattern_fixed up i token prev hi :
  _get_regex_match_index up = Some i → 0 < i →
  up !! i = Some token → up !! (i - 1) = Some prev →
  parse_range_token token = (None, hi) →
  handle_ranges_pattern up = Ok [with_copies up i prev hi].
Proof.
  intros Hidx Hpos Htok Hprev Hparse. unfold handle_ranges_pattern.
  rewrite Hidx. destruct i as [|k]; [lia|]. cbv beta iota.
  rewrite (py_index_Ok _ _ _ Htok), (py_index_Ok _ _ _ Hprev).
  cbn [outcome_bind]. rewrite Hparse. do 2 f_equal.
  apply slice_assign_with_copies. lia.
Qed.

(** When the first range token is the only one, the rewritten pattern has
    none left. *)
Lemma with_copies_range_free up i prev v :
  _get_regex_match_index up = Some i → 0 < i → up !! (i - 1) = Some prev →
  range_free (drop (i + 1) up) → range_free (with_copies up i prev v).
Proof.
  intros Hidx Hpos Hprev Hrest. unfold with_copies, range_free.
  pose proof (first_index_take _ _ _ Hidx) as Htake.
  rewrite !Forall_app. repeat split; [| |done].
  - replace (i - 1) with ((i - 1) `min` i) by lia.
    rewrite <- take_take. by apply Forall_take.
  - apply Forall_replicate.
    apply first_index_Some in Hidx as (_ & _ & _ & Hbefore).
    apply (Hbefore (i - 1)); [done|lia].
Qed.

(** A pass that leaves no range token is the last one. *)
Lemma handle_ranges_one_pass fuel up i r :
  _get_regex_match_index up = Some i →
  handle_ranges_pattern up = Ok r → Forall range_free r →
  _handle_ranges (S fuel) [up] = Ok r.
Proof.
  intros Hidx Hpass Hfree. rewrite handle_ranges_unfold.
  rewrite (any_patterns_match_regex_elem up [up] i); [|apply list_elem_of_here|done].
  cbn [negb handle_ranges_loop]. rewrite Hpass. cbn [outcome_bind].
  rewrite app_nil_r. by apply handle_ranges_no_match.
Qed.

(** C2, on the code: a pattern whose first token is a range token is
    appended unchanged by every pass, so the base case of [_handle_ranges]
    is never reached: whatever the recursion depth allowed, no result is
    returned.  The range expander does not terminate on such an input. *)
Theorem handle_ranges_range_first_no_result fuel ups token rest :
  range_regex_match token = true → (token :: rest) ∈ ups →
  handle_ranges_pattern (token :: rest) = Ok [token :: rest] ∧
  _handle_ranges fuel ups = OutOfFuel.
Proof.
  intros Hm Hin. split; [by apply handle_ranges_pattern_range_first|].
  revert ups Hin. induction fuel as [|fuel IH]; intros ups Hin;
    rewrite handle_ranges_unfold,
      (any_patterns_match_regex_elem (token :: rest) ups 0);
    try done; try (by apply first_index_cons_true).
  cbn [negb]. destruct (handle_ranges_loop_total ups) as [r Hr].
  rewrite Hr. cbn [outcome_bind].
  apply IH. by eapply handle_ranges_loop_keeps_range_first.
Qed.

(** C3: when the first range token of a pattern sits at position [i > 0]
    and parses to the bounds [(lo, hi)] with a minimum, a pass replaces the
    tokens at [i - 1] and [i] with [v] copies of the preceding token, one
    sibling pattern for every [v] of [lo, lo + 1, ..., hi - 1] in this
    order: [hi - lo] patterns when [lo <= hi]; when no other range token
    follows, these siblings are the result of the range expander.  For the
    bounds (2, 4) after a token [X] the result is [[X; X]] and
    [[X; X; X]]. *)
Theorem handle_ranges_bounded_range :
  (∀ up i token prev lo hi,
      _get_regex_match_index up = Some i → 0 < i →
      up !! i = Some token → up !! (i - 1) = Some prev →
      parse_range_token token = (Some lo, hi) →
      let siblings := with_copies up i prev <$> seqZ lo (hi - lo) in
      handle_ranges_pattern up = Ok siblings ∧
      length siblings = Z.to_nat (hi - lo) ∧
      ((lo ≤ hi)%Z → Z.of_nat (length siblings) = (hi - lo)%Z) ∧
      (∀ v, (lo ≤ v < hi)%Z → with_copies up i prev v ∈ siblings) ∧
      (range_free (drop (i + 1) up) →
       ∀ fuel, _handle_ranges (S fuel) [up] = Ok siblings)) ∧
  (∀ X r fuel,
      range_regex_match X = false → range_regex_match r = true →
      parse_range_token r = (Some 2%Z, 4%Z) →
      _handle_ranges (S fuel) [[X; r]] = Ok [[X; X]; [X; X; X]]).
Proof.
  assert (∀ up i token prev lo hi,
      _get_regex_match_index up = Some i → 0 < i →
      up !! i = Some token → up !! (i - 1) = Some prev →
      parse_range_token token = (Some lo, hi) →
      range_free (drop (i + 1) up) →
      ∀ fuel, _handle_ranges (S fuel) [up]
              = Ok (with_copies up i prev <$> seqZ lo (hi - lo))) as Hfull.
  { intros up i token prev lo hi Hidx Hpos Htok Hprev Hparse Hrest fuel.
    eapply handle_ranges_one_pass; [done|by eapply handle_ranges_pattern_bounded|].
    apply Forall_fmap, Forall_true. intros v. by apply with_copies_range_free. }
  split.
  - intros up i token prev lo hi Hidx Hpos Htok Hprev Hparse siblings.
    subst siblings. rewrite length_fmap, length_seqZ.
    split; [by eapply handle_ranges_pattern_bounded|].
    split; [done|]. split; [lia|]. split; [|by eapply Hfull].
    intros v Hv. apply list_elem_of_fmap. exists v. split; [done|].
    apply elem_of_seqZ. lia.
  - intros X r fuel HX Hr Hparse.
    assert (_get_regex_match_index [X; r] = Some 1) as Hidx.
    { apply first_index_Some. exists r. repeat split; [done|].
      intros [|[|j]] y Hy Hlt; simplify_eq/=; [done|lia]. }
    rewrite (Hfull [X; r] 1 r X 2%Z 4%Z Hidx); try done; [lia|constructor].
Qed.

(** C4: when the first range token of a pattern sits at position [i > 0]
    and parses to a maximum [hi] without minimum, a pass replaces the tokens
    at [i - 1] and [i] with [hi] copies of the preceding token and appends
    this single pattern; when no other range token follows, it is the
    result of the range expander.  [[X; RANGE(3)]] gives [[X; X; X]]
    alone. *)
Theorem handle_ranges_fixed_count :
  (∀ up i token prev hi,
      _get_regex_match_index up = Some i → 0 < i →
      up !! i = Some token → up !! (i - 1) = Some prev →
      parse_range_token token = (None, hi) →
      handle_ranges_pattern up
        = Ok [take (i - 1) up ++ replicate (Z.to_nat hi) prev ++ drop (i + 1) up] ∧
      (range_free (drop (i + 1) up) →
       ∀ fuel, _handle_ranges (S fuel) [up]
               = Ok [take (i - 1) up ++ replicate (Z.to_nat hi) prev
                       ++ drop (i + 1) up])) ∧
  (∀ X r fuel,
      range_regex_match X = false → range_regex_match r = true →
      parse_range_token r = (None, 3%Z) →
      _handle_ranges (S fuel) [[X; r]] = Ok [[X; X; X]]).
Proof.
  assert (∀ up i token prev hi,
      _get_regex_match_index up = Some i → 0 < i →
      up !! i = Some token → up !! (i - 1) = Some prev →
      parse_range_token token = (None, hi) →
      range_free (drop (i + 1) up) →
      ∀ fuel, _handle_ranges (S fuel) [up] = Ok [with_copies up i prev hi]) as Hfull.
  { intros up i token prev hi Hidx Hpos Htok Hprev Hparse Hrest fuel.
    eapply handle_ranges_one_pass; [done|by eapply handle_ranges_pattern_fixed|].
    apply Forall_singleton. by apply with_copies_range_free. }
  split.
  - intros up i token prev hi Hidx Hpos Htok Hprev Hparse.
    split; [by eapply handle_ranges_pattern_fixed|].
    intros Hrest fuel. by eapply Hfull.
  - intros X r fuel HX Hr Hparse.
    assert (_get_regex_match_index [X; r] = Some 1) as Hidx.
    { apply first_index_Some. exists r. repeat split; [done|].
      intros [|[|j]] y Hy Hlt; simplify_eq/=; [done|lia]. }
    rewrite (Hfull [X; r] 1 r X 3%Z Hidx); try done; [lia|constructor].
Qed.
End range_claims.

Lemma handle_ranges_range_first_no_result_witness :
  handle_ranges_pattern ["RANGE(3)"; "X"] = Ok [["RANGE(3)"; "X"]] ∧
  _handle_ranges 1000 [["RANGE(3)"; "X"]; ["Y"]] = OutOfFuel.
Proof.
  apply (handle_ranges_range_first_no_result
           1000 [["RANGE(3)"; "X"]; ["Y"]] "RANGE(3)" ["X"]).
  - reflexivity.
  - constructor.
Defined.

Lemma handle_ranges_bounded_range_witness :
  handle_ranges_pattern ["W"; "X"; "RANGE(2,4)"; "Y"]
    = Ok [["W"; "X"; "X"; "Y"]; ["W"; "X"; "X"; "X"; "Y"]] ∧
  _handle_ranges 1 [["X"; "RANGE(2,4)"]] = Ok [["X"; "X"]; ["X"; "X"; "X"]].
Proof.
  split.
  - apply (proj1 handle_ranges_bounded_range
             ["W"; "X"; "RANGE(2,4)"; "Y"] 2 "RANGE(2,4)" "X" 2%Z 4%Z);
      [reflexivity | lia | reflexivity..].
  - apply (proj2 handle_ranges_bounded_range "X" "RANGE(2,4)" 0); reflexivity.
Defined.

Lemma handle_ranges_fixed_count_witness :
  handle_ranges_pattern ["W"; "X"; "RANGE(3)"; "Y"]
    = Ok [["W"; "X"; "X"; "X"; "Y"]] ∧
  _handle_ranges 1 [["X"; "RANGE(3)"]] = Ok [["X"; "X"; "X"]].
Proof.
  split.
  - apply (proj1 handle_ranges_fixed_count
             ["W"; "X"; "RANGE(3)"; "Y"] 2 "RANGE(3)" "X" 3%Z);
      [reflexivity | lia | reflexivity..].
  - apply (proj2 handle_ranges_fixed_count "X" "RANGE(3)" 0); reflexivity.
Defined.

(** ** Dicts and comprehensions *)

Lemma traverse_Forall2 {A B} (f : A → outcome B) (l : list A) (r : list B) :
  traverse f l = Ok r → Forall2 (λ x y, f x = Ok y) l r.
Proof.
  revert r. induction l as [|x l IH]; intros r; simpl.
  - intros [= <-]. constructor.
  - destruct (f x) as [y| |] eqn:Hx; simpl; [|done..].
    destruct (traverse f l) as [ys| |]; simpl; [|done..].
    intros [= <-]. constructor; [done|]. by apply IH.
Qed.

Lemma dict_of_items_lookup_None {V} (items : list (string * V)) (k : string) :
  dict_of_items items !! k = None ↔ k ∉ items.*1.
Proof.
  unfold dict_of_items. rewrite <- not_elem_of_list_to_map.
  by rewrite fmap_reverse, elem_of_reverse.
Qed.

Lemma dict_traverse_lookup {A B} (f : A → outcome B)
    (d : gmap string A) (d' : gmap string B) (k : string) :
  dict_traverse f d = Ok d' →
  match d !! k with
  | Some v => ∃ v', f v = Ok v' ∧ d' !! k = Some v'
  | None => d' !! k = None
  end.
Proof.
  unfold dict_traverse.
  destruct (traverse _ (map_to_list d)) as [items| |] eqn:Htr; simpl; [|done..].
  intros [= <-]. apply traverse_Forall2 in Htr.
  assert (Forall2 (λ kv kv' : string * _, kv'.1 = kv.1 ∧ f kv.2 = Ok kv'.2)
                  (map_to_list d) items) as Hrel.
  { eapply Forall2_impl; [exact Htr|]. intros [k0 v0] [k1 v1]. simpl.
    destruct (f v0); simpl; [|done..]. by intros [= <- <-]. }
  assert (items.*1 = (map_to_list d).*1) as Hkeys.
  { clear Htr. induction Hrel as [|???? [Hk _]]; [done|]. simpl. by f_equal. }
  destruct (d !! k) as [v|] eqn:Hk.
  - apply elem_of_map_to_list in Hk.
    apply list_elem_of_lookup in Hk as [i Hi].
    destruct (Forall2_lookup_l _ _ _ _ _ Hrel Hi) as ([k' v'] & Hi' & Hk' & Hv).
    simpl in *. subst k'. exists v'. split; [done|].
    apply elem_of_list_to_map.
    + rewrite Hkeys. apply NoDup_fst_map_to_list.
    + apply list_elem_of_lookup. by exists i.
  - apply not_elem_of_list_to_map_1. rewrite Hkeys.
    intros ([k' v] & -> & Hin)%list_elem_of_fmap.
    apply elem_of_map_to_list in Hin. simpl in Hk. congruence.
Qed.

Lemma dict_traverse_lookup_None {A B} (f : A → outcome B)
    (d : gmap string A) (d' : gmap string B) (k : string) :
  dict_traverse f d = Ok d' → d' !! k = None ↔ d !! k = None.
Proof.
  intros Hd. pose proof (dict_traverse_lookup f d d' k Hd) as Hk.
  destruct (d !! k) as [v|]; [|done].
  destruct Hk as (v' & _ & ->). done.
Qed.

(** ** Group expander *)

Lemma default_groups_sequences ups :
  default_groups ups = default_group_sequence <$> ups.
Proof.
  unfold default_groups. apply list_fmap_ext. intros _ up _.
  unfold default_group_sequence. induction up as [|t up IH]; [done|].
  simpl. by f_equal.
Qed.

Section group_facts.
Context `{RangeSyntax}.
Implicit Types gm : gmap string (list UTTERANCE_PATTERN).

(** No token of the pattern is a key of the group map. *)
Lemma map_match_index_None up gm :
  _get_map_match_index up gm = None ↔ Forall (λ token, gm !! token = None) up.
Proof.
  unfold _get_map_match_index. rewrite first_index_None.
  apply Forall_iff. intros token.
  by rewrite bool_decide_eq_false, eq_None_not_Some.
Qed.

Lemma any_pattern_token_in_group_map_false ups gm :
  _any_pattern_token_in_group_map ups gm = false ↔
  Forall (λ up, _get_map_match_index up gm = None) ups.
Proof.
  unfold _any_pattern_token_in_group_map. rewrite existsb_false_Forall.
  apply Forall_iff. intros up.
  by rewrite bool_decide_eq_false, eq_None_not_Some.
Qed.

Lemma expand_groups_recursive_unfold fuel ups gps gm :
  _expand_groups_recursive fuel ups gps gm =
  if negb (_any_pattern_token_in_group_map ups gm) then Ok (ups, gps)
  else match fuel with
       | 0 => OutOfFuel
       | S fuel' =>
           expanded <- expand_groups_loop ups gps gm ;;
           _expand_groups_recursive fuel' expanded.1 expanded.2 gm
       end.
Proof. by destruct fuel. Qed.

Lemma expand_groups_recursive_no_match fuel ups gps gm :
  Forall (λ up, _get_map_match_index up gm = None) ups →
  _expand_groups_recursive fuel ups gps gm = Ok (ups, gps).
Proof.
  intros Hnone%any_pattern_token_in_group_map_false.
  by rewrite expand_groups_recursive_unfold, Hnone.
Qed.

Lemma expand_groups_pattern_no_match up groups gm :
  _get_map_match_index up gm = None →
  expand_groups_pattern up groups gm = Ok ([up], [groups]).
Proof. unfold expand_groups_pattern. by intros ->. Qed.

Lemma expand_groups_pattern_lengths up groups gm ps gs :
  expand_groups_pattern up groups gm = Ok (ps, gs) → length ps = length gs.
Proof.
  unfold expand_groups_pattern.
  destruct (_get_map_match_index up gm) as [index|]; [|by intros [= <- <-]].
  destruct (py_index up index) as [token| |]; simpl; [|done..].
  destruct (_get_current_group_index index groups) as [gi| |]; simpl; [|done..].
  destruct (py_getitem gm token) as [gps| |]; simpl; [|done..].
  intros [= <- <-]. by rewrite !length_fmap.
Qed.

(** A pass keeps, with its groups, every pattern without group token. *)
Lemma expand_groups_loop_keeps ups gps gm ps gs :
  expand_groups_loop ups gps gm = Ok (ps, gs) →
  length ps = length gs ∧
  ∀ up groups, (up, groups) ∈ zip ups gps →
               _get_map_match_index up gm = None → (up, groups) ∈ zip ps gs.
Proof.
  revert gps ps gs. induction ups as [|up0 ups IH]; intros gps ps gs.
  { simpl. intros [= <- <-]. split; [done|]. by intros ?? ?%elem_of_nil. }
  destruct gps as [|g0 gps].
  { simpl. intros [= <- <-]. split; [done|]. by intros ?? ?%elem_of_nil. }
  simpl.
  destruct (expand_groups_pattern up0 g0 gm) as [[a b]| |] eqn:Hhead; simpl; [|done..].
  destruct (expand_groups_loop ups gps gm) as [[c d]| |] eqn:Htail; simpl; [|done..].
  intros [= <- <-].
  pose proof (expand_groups_pattern_lengths _ _ _ _ _ Hhead) as Hlen.
  destruct (IH gps c d Htail) as [Hlen' Hkeep].
  split; [cbn [fst snd]; rewrite !length_app; lia|].
  intros up groups Hin Hnone. cbn [fst snd].
  rewrite zip_with_app by done.
  apply elem_of_app. apply elem_of_cons in Hin as [[= -> ->]|Hin].
  - left. rewrite expand_groups_pattern_no_match in Hhead by done.
    injection Hhead as <- <-. simpl. apply list_elem_of_here.
  - right. by apply Hkeep.
Qed.

Lemma expand_groups_recursive_keeps fuel ups gps gm ps gs up groups :
  _expand_groups_recursive fuel ups gps gm = Ok (ps, gs) →
  (up, groups) ∈ zip ups gps → _get_map_match_index up gm = None →
  (up, groups) ∈ zip ps gs.
Proof.
  revert ups gps. induction fuel as [|fuel IH]; intros ups gps;
    rewrite expand_groups_recursive_unfold;
    destruct (negb _); [by intros [= <- <-] | done | by intros [= <- <-] |].
  destruct (expand_groups_loop ups gps gm) as [[ps' gs']| |] eqn:Hloop;
    simpl; [|done..].
  intros Hrec Hin Hnone. apply (IH ps' gs' Hrec); [|done].
  by apply (expand_groups_loop_keeps _ _ _ _ _ Hloop).
Qed.
End group_facts.

Lemma elem_of_zip_fmap {A B} (g : A → B) (l : list A) (x : A) :
  x ∈ l → (x, g x) ∈ zip l (g <$> l).
Proof.
  induction 1 as [|x y l _ IH]; simpl; [apply list_elem_of_here|].
  by apply list_elem_of_further.
Qed.

Section group_claims.
Context `{RangeSyntax}.

Lemma expand_groups_declared fuel pd ups items :
  groups pd = Some items →
  _expand_groups fuel pd ups =
  (expanded_group_map <-
     dict_traverse (λ pattern, _handle_ranges fuel [pattern]) (dict_of_items items) ;;
   _expand_groups_recursive fuel ups (default_groups ups) expanded_group_map).
Proof.
  intros Hg. unfold _expand_groups, _get_base_item_map, pattern_def_items.
  rewrite Hg. reflexivity.
Qed.

(** The keys of the expanded group map are the declared group names. *)
Lemma expanded_group_map_keys fuel items (gm : gmap string (list UTTERANCE_PATTERN)) token :
  dict_traverse (λ pattern, _handle_ranges fuel [pattern]) (dict_of_items items) = Ok gm →
  gm !! token = None ↔ token ∉ items.*1.
Proof.
  intros Hgm. rewrite (dict_traverse_lookup_None _ _ _ _ Hgm).
  apply dict_of_items_lookup_None.
Qed.

(** C7: without a [groups] key the group expander returns the utterance
    patterns as they are, each with one [("None", 1)] entry per token.  With
    groups declared, the same holds as soon as no token of any pattern is a
    group name, and in general every pattern without a group-name token is
    part of the result, unchanged and with this default group sequence. *)
Theorem expand_groups_default_groups :
  (∀ fuel pd ups,
      groups pd = None →
      _expand_groups fuel pd ups = Ok (ups, default_group_sequence <$> ups)) ∧
  (∀ fuel pd ups items gm,
      groups pd = Some items →
      dict_traverse (λ pattern, _handle_ranges fuel [pattern]) (dict_of_items items)
        = Ok gm →
      Forall (Forall (λ token, token ∉ items.*1)) ups →
      _expand_groups fuel pd ups = Ok (ups, default_group_sequence <$> ups)) ∧
  (∀ fuel pd ups items ps gs up,
      groups pd = Some items →
      _expand_groups fuel pd ups = Ok (ps, gs) →
      up ∈ ups → Forall (λ token, token ∉ items.*1) up →
      (up, default_group_sequence up) ∈ zip ps gs).
Proof.
  split; [|split].
  - intros fuel pd ups Hg. unfold _expand_groups. rewrite Hg.
    by rewrite default_groups_sequences.
  - intros fuel pd ups items gm Hg Hgm Hfree.
    rewrite (expand_groups_declared _ _ _ _ Hg), Hgm. cbn [outcome_bind].
    rewrite default_groups_sequences.
    apply expand_groups_recursive_no_match.
    eapply Forall_impl; [exact Hfree|]. intros up Hup.
    apply map_match_index_None. eapply Forall_impl; [exact Hup|].
    intros token Htok. by apply (expanded_group_map_keys fuel items).
  - intros fuel pd ups items ps gs up Hg Hrun Hin Hfree.
    rewrite (expand_groups_declared _ _ _ _ Hg) in Hrun.
    destruct (dict_traverse _ (dict_of_items items)) as [gm| |] eqn:Hgm;
      simpl in Hrun; [|done..].
    eapply expand_groups_recursive_keeps; [exact Hrun| |].
    + rewrite default_groups_sequences. by apply elem_of_zip_fmap.
    + apply map_match_index_None. eapply Forall_impl; [exact Hfree|].
      intros token Htok. by apply (expanded_group_map_keys fuel items).
Qed.
End group_claims.

Lemma expand_groups_default_groups_witness :
  _expand_groups 0 hi_grammar [["A"; "B"]]
    = Ok ([["A"; "B"]], [[("None", 1); ("None", 1)]]) ∧
  _expand_groups 0 grouped_grammar [["A"; "B"]; ["C"]]
    = Ok ([["A"; "B"]; ["C"]], [[("None", 1); ("None", 1)]; [("None", 1)]]) ∧
  (["A"; "B"], [("None", 1); ("None", 1)])
    ∈ zip [["P"; "Q"]; ["A"; "B"]] [[("G", 2)]; [("None", 1); ("None", 1)]].
Proof.
  destruct expand_groups_default_groups as (Hnone & Hunused & Hkept).
  split; [|split].
  - apply (Hnone 0 hi_grammar [["A"; "B"]]). reflexivity.
  - apply (Hunused 0 grouped_grammar [["A"; "B"]; ["C"]] [("G", ["P"; "Q"])]
                   {["G" := [["P"; "Q"]]]}).
    + reflexivity.
    + vm_compute. reflexivity.
    + compute_done.
  - apply (Hkept 5 grouped_grammar [["G"]; ["A"; "B"]] [("G", ["P"; "Q"])]
                 [["P"; "Q"]; ["A"; "B"]] [[("G", 2)]; [("None", 1); ("None", 1)]]
                 ["A"; "B"]).
    + reflexivity.
    + vm_compute. reflexivity.
    + compute_done.
    + compute_done.
Defined.

(** C1, on the code: for the group [G] defined as [[H; Q]] and the group
    [H] defined as [[P; R]], the utterance pattern [[G]] is first rewritten
    to [[H; Q]] with groups [[(G, 2)]], which cover it, and then to
    [[P; R; Q]] with groups [[(H, 2)]]: the entry of span 2 that holds [H]
    is replaced by an entry of the length of [H]'s pattern, and the spans
    add up to 2 for a pattern of 3 tokens.  This pair is the result of the
    group expander. *)
Theorem expand_groups_nested_spans_short :
  let gm : gmap string (list UTTERANCE_PATTERN) :=
    {["G" := [["H"; "Q"]]; "H" := [["P"; "R"]]]} in
  expand_groups_loop [["G"]] (default_groups [["G"]]) gm
    = Ok ([["H"; "Q"]], [[("G", 2)]]) ∧
  spans_cover ["H"; "Q"] [("G", 2)] ∧
  expand_groups_loop [["H"; "Q"]] [[("G", 2)]] gm
    = Ok ([["P"; "R"; "Q"]], [[("H", 2)]]) ∧
  (∀ fuel, _expand_groups (2 + fuel) nested_grammar [["G"]]
           = Ok ([["P"; "R"; "Q"]], [[("H", 2)]])) ∧
  ¬ spans_cover ["P"; "R"; "Q"] [("H", 2)].
Proof.
  repeat split; try reflexivity.
  - intros fuel. destruct fuel; vm_compute; reflexivity.
  - vm_compute. discriminate.
Qed.

(** ** Token handlers *)

Lemma dict_truthy_lookup {V} (d : gmap string V) (k : string) (v : V) :
  d !! k = Some v → dict_truthy d = true.
Proof.
  intros Hk. unfold dict_truthy.
  destruct (map_to_list d) as [|kv l] eqn:Hl; [|done].
  apply map_to_list_empty_iff in Hl. by rewrite Hl, lookup_empty in Hk.
Qed.

Lemma dict_truthy_false {V} (d : gmap string V) :
  dict_truthy d = false → d = ∅.
Proof.
  unfold dict_truthy. destruct (map_to_list d) eqn:Hl; [|done].
  intros _. by apply map_to_list_empty_iff.
Qed.

(** C8: the handler of a token is the entry of the handler map for the
    token when there is one, else the entry of the map under [DEFAULT] when
    there is one, else the built-in handler, which is also the handler when
    no map is given; the built-in handler renders token [A] and phrase [hi]
    as [[A(hi)]]. *)
Theorem get_token_handler_fallback (token : string) :
  (∀ (m : TOKEN_HANDLER_MAP) h,
      m !! token = Some h → _get_token_handler token (Some m) = h) ∧
  (∀ (m : TOKEN_HANDLER_MAP) h,
      m !! token = None → m !! "DEFAULT" = Some h →
      _get_token_handler token (Some m) = h) ∧
  (∀ m : TOKEN_HANDLER_MAP,
      m !! token = None → m !! "DEFAULT" = None →
      _get_token_handler token (Some m) = default_token_handler) ∧
  _get_token_handler token None = default_token_handler ∧
  (∀ phrase, default_token_handler token phrase
             = String.append "[" (String.append token
                 (String.append "(" (String.append phrase ")]")))).
Proof.
  repeat split.
  - intros m h Hk. unfold _get_token_handler.
    by rewrite (dict_truthy_lookup _ _ _ Hk), Hk.
  - intros m h Hk Hd. unfold _get_token_handler.
    by rewrite (dict_truthy_lookup _ _ _ Hd), Hk, Hd.
  - intros m Hk Hd. unfold _get_token_handler.
    destruct (dict_truthy m); [|done]. by rewrite Hk, Hd.
Qed.

Lemma get_token_handler_fallback_witness :
  let shout : TOKEN_HANDLER := λ token phrase, String.append phrase "!" in
  let quiet : TOKEN_HANDLER := λ token phrase, phrase in
  _get_token_handler "A" (Some {["A" := shout; "DEFAULT" := quiet]}) "A" "hi" = "hi!" ∧
  _get_token_handler "B" (Some {["A" := shout; "DEFAULT" := quiet]}) "B" "hi" = "hi" ∧
  _get_token_handler "B" (Some {["A" := shout]}) "B" "hi" = "[B(hi)]" ∧
  _get_token_handler "B" None "B" "hi" = "[B(hi)]".
Proof.
  intros shout quiet.
  destruct (get_token_handler_fallback "A") as (Hown & _).
  destruct (get_token_handler_fallback "B") as (_ & Hmap & Hnone & Hno_map & _).
  split; [|split; [|split]].
  - rewrite (Hown {["A" := shout; "DEFAULT" := quiet]} shout); reflexivity.
  - rewrite (Hmap {["A" := shout; "DEFAULT" := quiet]} quiet); reflexivity.
  - rewrite (Hnone {["A" := shout]}); reflexivity.
  - rewrite Hno_map; reflexivity.
Defined.

(** ** Token pattern resolver *)

Lemma dict_update_lookup {V} (d other : gmap string V) (k : string) :
  dict_update d other !! k =
  match other !! k with
  | Some v => Some v
  | None => d !! k
  end.
Proof.
  unfold dict_update. revert k.
  apply (map_fold_weak_ind
           (λ (r other : gmap string V),
              ∀ k, r !! k = match other !! k with
                            | Some v => Some v
                            | None => d !! k
                            end)).
  - intros k. by rewrite lookup_empty.
  - intros i x m r Hi IH k. rewrite !lookup_insert.
    case_decide; [done|]. apply IH.
Qed.

(** C9: when the static map is built, the token patterns map is built too
    and holds, for a token name in both maps, the entry of the dynamic map;
    for a token name in one of them only, the entry of that map; and nothing
    for any other name. *)
Theorem token_patterns_map_dynamic_first (pd : pattern_def)
    (dynamic_token_patterns_map : option TOKEN_PATTERNS_MAP)
    (static_token_patterns_map : TOKEN_PATTERNS_MAP) :
  _get_static_token_patterns_map pd = Ok static_token_patterns_map →
  ∃ token_patterns_map,
    _get_token_patterns_map pd dynamic_token_patterns_map = Ok token_patterns_map ∧
    let dynamic_map : TOKEN_PATTERNS_MAP := default ∅ dynamic_token_patterns_map in
    ∀ token,
      (∀ d s, dynamic_map !! token = Some d →
              static_token_patterns_map !! token = Some s →
              token_patterns_map !! token = Some d) ∧
      (∀ d, dynamic_map !! token = Some d →
            static_token_patterns_map !! token = None →
            token_patterns_map !! token = Some d) ∧
      (∀ s, dynamic_map !! token = None →
            static_token_patterns_map !! token = Some s →
            token_patterns_map !! token = Some s) ∧
      (dynamic_map !! token = None →
       static_token_patterns_map !! token = None →
       token_patterns_map !! token = None).
Proof.
  intros Hstatic. unfold _get_token_patterns_map. rewrite Hstatic.
  cbn [outcome_bind]. eexists. split; [done|].
  intros token. rewrite !dict_update_lookup, lookup_empty.
  repeat split.
  - by intros d s -> _.
  - by intros d -> _.
  - by intros s -> ->.
  - by intros -> ->.
Qed.

Lemma token_patterns_map_dynamic_first_witness :
  ∃ token_patterns_map,
    _get_token_patterns_map hi_grammar
      (Some {["B" := [[["you"]]]; "C" := [[["again"]]]]}) = Ok token_patterns_map ∧
    token_patterns_map !! "B" = Some [[["you"]]] ∧
    token_patterns_map !! "C" = Some [[["again"]]] ∧
    token_patterns_map !! "A" = Some [[["hi"]]] ∧
    token_patterns_map !! "D" = None.
Proof.
  destruct (token_patterns_map_dynamic_first hi_grammar
              (Some {["B" := [[["you"]]]; "C" := [[["again"]]]]})
              {["A" := [[["hi"]]]; "B" := [[["there"]]; [["world"]]]]})
    as (m & Hrun & Hlookup).
  { vm_compute. reflexivity. }
  exists m. split; [exact Hrun|].
  split; [|split; [|split]].
  - apply (proj1 (Hlookup "B") [[["you"]]] [[["there"]]; [["world"]]]); reflexivity.
  - apply (proj1 (proj2 (Hlookup "C")) [[["again"]]]); reflexivity.
  - apply (proj1 (proj2 (proj2 (Hlookup "A"))) [[["hi"]]]); reflexivity.
  - apply (proj2 (proj2 (proj2 (Hlookup "D")))); reflexivity.
Defined.

(** ** Utterance materializer *)

Lemma handled_token_combo_lengths combo tokens thm :
  length <$> _compute_handled_token_combo combo tokens thm
  = length <$> take (length tokens) combo.
Proof.
  unfold _compute_handled_token_combo. revert tokens.
  induction combo as [|c combo IH]; intros [|t tokens]; simpl; try done.
  rewrite length_fmap. f_equal. apply IH.
Qed.

Lemma traverse_ext_Ok {A B} (f : A → outcome B) (g : A → B) (l : list A) :
  (∀ x, x ∈ l → f x = Ok (g x)) → traverse f l = Ok (g <$> l).
Proof.
  induction l as [|x l IH]; intros Hf; simpl; [done|].
  rewrite Hf by apply list_elem_of_here. simpl.
  rewrite IH; [done|]. intros y Hy. apply Hf. by apply list_elem_of_further.
Qed.

(** The joiner picks one element of every component. *)
Lemma join_combo_elem {A} (combo : list (list A)) (xs : list A) :
  xs ∈ join_combo combo → Forall2 (λ c x, x ∈ c) combo xs.
Proof.
  revert xs. induction combo as [|c combo IH]; intros xs; simpl.
  - intros ->%list_elem_of_singleton. constructor.
  - intros (l & Hl & Hxs)%list_elem_of_In%in_concat.
    apply list_elem_of_In in Hl, Hxs.
    apply list_elem_of_fmap in Hl as (x & -> & Hx).
    apply list_elem_of_fmap in Hxs as (r & -> & Hr).
    constructor; [done|]. by apply IH.
Qed.

Lemma join_combo_indices_in_range (combo : COMBO) (indices : list nat) :
  indices ∈ join_combo ((λ component : list string, seq 0 (length component)) <$> combo) →
  indices_in_range combo indices.
Proof.
  intros Hin%join_combo_elem. unfold indices_in_range.
  apply Forall2_fmap_l in Hin. eapply Forall2_impl; [exact Hin|].
  intros c i Hi. simpl in Hi. apply elem_of_seq in Hi. lia.
Qed.

(** The inner loop stops after the positions that have a token. *)
Lemma select_components_in_range combo tokens thm indices :
  indices_in_range combo indices →
  select_components combo (_compute_handled_token_combo combo tokens thm) indices
  = Ok (selected_phrases (take (length tokens) combo) indices,
        handled_phrases tokens thm
          (selected_phrases (take (length tokens) combo) indices)).
Proof.
  unfold _compute_handled_token_combo, selected_phrases, handled_phrases.
  intros Hrange. revert tokens.
  induction Hrange as [|c i combo indices Hi _ IH]; intros tokens.
  - simpl. by destruct tokens.
  - destruct tokens as [|t tokens]; [done|]. simpl.
    destruct (lookup_lt_is_Some_2 c i Hi) as [x Hx].
    rewrite (py_index_Ok _ _ _ Hx). cbn [outcome_bind].
    rewrite (py_index_Ok _ i (_get_token_handler t thm t x))
      by (by rewrite list_lookup_fmap, Hx).
    cbn [outcome_bind]. rewrite IH. simpl. by rewrite Hx.
Qed.

Lemma materialize_in_range combo tokens thm index_tuples :
  Forall (indices_in_range combo) index_tuples →
  materialize combo (_compute_handled_token_combo combo tokens thm) index_tuples
  = Ok ((λ indices,
           let phrases := selected_phrases (take (length tokens) combo) indices in
           (join_space phrases, handled_phrases tokens thm phrases))
          <$> index_tuples).
Proof.
  intros Hrange. unfold materialize. apply traverse_ext_Ok.
  intros indices Hin. rewrite Forall_forall in Hrange.
  rewrite select_components_in_range; [done|].
  by apply Hrange.
Qed.

Lemma selected_phrases_length combo indices :
  indices_in_range combo indices →
  ∀ n, length (selected_phrases (take n combo) indices) = n `min` length combo.
Proof.
  unfold selected_phrases. intros Hrange n.
  rewrite length_zip_with, length_take, <- (Forall2_length _ _ _ Hrange). lia.
Qed.

(** C6 as stated fails: with two positions in the utterance combo and a
    single token, the handled-token combo has a single position. *)
Lemma handled_token_combo_shape_counterexample :
  length (_compute_handled_token_combo [["a"]; ["b"; "c"]] ["T"] None) = 1 ∧
  length <$> _compute_handled_token_combo [["a"]; ["b"; "c"]] ["T"] None
  ≠ length <$> [["a"]; ["b"; "c"]].
Proof. split; [reflexivity|]. vm_compute. discriminate. Qed.

Section materializer_claims.
Context `{RangeSyntax}.

(** Every triple of the first entry point has as many combo positions as
    tokens. *)
Lemma entry_combo_length fuel pd dyn triples combo tokens groups :
  generate_utterance_combo_tokens_and_groups fuel pd dyn = Ok triples →
  (combo, tokens, groups) ∈ triples → length combo = length tokens.
Proof.
  unfold generate_utterance_combo_tokens_and_groups.
  destruct (_get_token_patterns_map pd dyn) as [tpm| |]; simpl; [|done..].
  destruct (_handle_ranges fuel (utterance_patterns pd)) as [ups| |]; simpl; [|done..].
  destruct (_expand_groups fuel pd ups) as [expanded| |]; simpl; [|done..].
  intros Htr%traverse_Forall2 [i Hi]%list_elem_of_lookup.
  destruct (Forall2_lookup_r _ _ _ _ _ Htr Hi) as (pg & _ & Hpg).
  destruct (traverse (py_getitem tpm) pg.1) as [eup| |] eqn:Heup;
    simpl in Hpg; [|done..].
  injection Hpg as <- <- <-. apply traverse_Ok_length in Heup.
  unfold _compute_utterance_combo. by rewrite length_fmap.
Qed.

(** C6, amended: the handled-token combo has the shape of the first
    [len(tokens)] positions of the utterance combo, that is
    [min(len(utterance_combo), len(tokens))] positions, each with as many
    entries as the utterance combo has phrases there.  The two shapes are
    the same when there are at least as many tokens as positions, as is the
    case for every combo and token sequence yielded by the first entry
    point. *)
Theorem handled_token_combo_shape :
  (∀ combo tokens thm,
      let handled_token_combo := _compute_handled_token_combo combo tokens thm in
      length <$> handled_token_combo = length <$> take (length tokens) combo ∧
      length handled_token_combo = length combo `min` length tokens ∧
      (length combo ≤ length tokens →
       length <$> handled_token_combo = length <$> combo)) ∧
  (∀ fuel pd dyn triples combo tokens groups thm,
      generate_utterance_combo_tokens_and_groups fuel pd dyn = Ok triples →
      (combo, tokens, groups) ∈ triples →
      length <$> _compute_handled_token_combo combo tokens thm = length <$> combo).
Proof.
  assert (∀ combo tokens thm, length combo ≤ length tokens →
            length <$> _compute_handled_token_combo combo tokens thm
            = length <$> combo) as Hsame.
  { intros combo tokens thm Hle.
    by rewrite handled_token_combo_lengths, take_ge. }
  split.
  - intros combo tokens thm handled_token_combo. subst handled_token_combo.
    split; [apply handled_token_combo_lengths|]. split; [|apply Hsame].
    unfold _compute_handled_token_combo. apply length_zip_with.
  - intros fuel pd dyn triples combo tokens groups thm Hrun Hin.
    apply Hsame. by rewrite (entry_combo_length _ _ _ _ _ _ _ Hrun Hin).
Qed.

(** C5: for the grammar with the single utterance pattern [[A; B]], one
    phrase [hi] for [A] and the phrases [there] and [world] for [B], no
    groups, no range token and no handler map, the first entry point yields
    one combo, and the second entry point yields for it the pairs
    [("hi there", ("[A(hi)]", "[B(there)]"))] and
    [("hi world", ("[A(hi)]", "[B(world)]"))], each utterance being the
    selected phrases joined with one space. *)
Theorem hi_grammar_utterances fuel :
  range_regex_match "A" = false → range_regex_match "B" = false →
  generate_utterance_combo_tokens_and_groups fuel hi_grammar None
    = Ok [([["hi"]; ["there"; "world"]], ["A"; "B"], [("None", 1); ("None", 1)])] ∧
  generate_utterances_and_handled_tokens [["hi"]; ["there"; "world"]] ["A"; "B"] None
    = Ok [("hi there", ["[A(hi)]"; "[B(there)]"]);
          ("hi world", ["[A(hi)]"; "[B(world)]"])] ∧
  join_space ["hi"; "there"] = "hi there" ∧ join_space ["hi"; "world"] = "hi world".
Proof.
  intros HA HB. split; [|by vm_compute].
  unfold generate_utterance_combo_tokens_and_groups.
  replace (_get_token_patterns_map hi_grammar None)
    with (Ok ({["A" := [[["hi"]]]; "B" := [[["there"]]; [["world"]]]]}
              : TOKEN_PATTERNS_MAP)) by (by vm_compute).
  cbn [outcome_bind utterance_patterns hi_grammar].
  rewrite handle_ranges_no_match by (by repeat constructor).
  cbn [outcome_bind]. reflexivity.
Qed.

(** C10: with fewer tokens than combo positions nothing is raised; the
    handled-token combo has [len(tokens)] positions, and for every index
    tuple of the joiner the pair yielded holds the phrases of the first
    [len(tokens)] positions only, joined with a space, and their handled
    tokens.  This holds for any in-range index tuples the joiner may
    produce. *)
Theorem generate_truncates_to_tokens combo tokens thm :
  length tokens < length combo →
  let handled_token_combo := _compute_handled_token_combo combo tokens thm in
  let index_tuples :=
    join_combo ((λ component : list string, seq 0 (length component)) <$> combo) in
  let yielded indices :=
    let phrases := selected_phrases (take (length tokens) combo) indices in
    (join_space phrases, handled_phrases tokens thm phrases) in
  length handled_token_combo = length tokens ∧
  generate_utterances_and_handled_tokens combo tokens thm
    = Ok (yielded <$> index_tuples) ∧
  (∀ tuples, Forall (indices_in_range combo) tuples →
             materialize combo handled_token_combo tuples = Ok (yielded <$> tuples)) ∧
  (∀ indices, indices_in_range combo indices →
              length (selected_phrases (take (length tokens) combo) indices)
              = length tokens ∧
              length (yielded indices).2 = length tokens).
Proof.
  intros Hlt handled_token_combo index_tuples yielded.
  split; [|split; [|split]].
  - unfold handled_token_combo, _compute_handled_token_combo.
    rewrite length_zip_with. lia.
  - unfold generate_utterances_and_handled_tokens.
    apply materialize_in_range. apply Forall_forall.
    intros indices Hin. by apply join_combo_indices_in_range.
  - intros tuples Hrange. by apply materialize_in_range.
  - intros indices Hrange.
    pose proof (selected_phrases_length _ _ Hrange (length tokens)) as Hlen.
    split; [lia|]. unfold yielded, handled_phrases. simpl.
    rewrite length_zip_with. lia.
Qed.
End materializer_claims.

Lemma handled_token_combo_shape_witness :
  length <$> _compute_handled_token_combo [["a"]; ["b"; "c"]] ["T"; "U"; "V"] None
    = [1; 2] ∧
  length <$> _compute_handled_token_combo [["hi"]; ["there"; "world"]] ["A"; "B"] None
    = [1; 2].
Proof.
  destruct handled_token_combo_shape as [Hshape Hentry]. split.
  - apply (proj2 (proj2 (Hshape [["a"]; ["b"; "c"]] ["T"; "U"; "V"] None))).
    simpl. lia.
  - apply (Hentry 0 hi_grammar None
             [([["hi"]; ["there"; "world"]], ["A"; "B"], [("None", 1); ("None", 1)])]
             [["hi"]; ["there"; "world"]] ["A"; "B"] [("None", 1); ("None", 1)] None).
    + vm_compute. reflexivity.
    + constructor.
Defined.

Lemma hi_grammar_utterances_witness :
  generate_utterance_combo_tokens_and_groups 0 hi_grammar None
    = Ok [([["hi"]; ["there"; "world"]], ["A"; "B"], [("None", 1); ("None", 1)])] ∧
  generate_utterances_and_handled_tokens [["hi"]; ["there"; "world"]] ["A"; "B"] None
    = Ok [("hi there", ["[A(hi)]"; "[B(there)]"]);
          ("hi world", ["[A(hi)]"; "[B(world)]"])].
Proof.
  destruct (hi_grammar_utterances 0) as (Hfirst & Hsecond & _);
    [reflexivity | reflexivity |].
  split; [exact Hfirst | exact Hsecond].
Defined.

Lemma generate_truncates_to_tokens_witness :
  length (_compute_handled_token_combo [["a"; "b"]; ["c"; "d"]] ["T"] None) = 1 ∧
  generate_utterances_and_handled_tokens [["a"; "b"]; ["c"; "d"]] ["T"] None
    = Ok [("a", ["[T(a)]"]); ("a", ["[T(a)]"]); ("b", ["[T(b)]"]); ("b", ["[T(b)]"])].
Proof.
  destruct (generate_truncates_to_tokens [["a"; "b"]; ["c"; "d"]] ["T"] None)
    as (Hlen & Hrun & _); [simpl; lia|].
  split; [exact Hlen | exact Hrun].
Defined.

(** ** Group expansion with groups made of plain tokens

    When no group pattern holds a group name, every rewrite replaces an
    entry of span 1, and the group sequences stay aligned with their
    patterns. *)

Lemma first_index_cons {A} (p : A → bool) (x : A) (l : list A) :
  first_index p (x :: l) = if p x then Some 0 else S <$> first_index p l.
Proof.
  unfold first_index. simpl. case_decide as Hp.
  - by rewrite Hp.
  - destruct (p x); [done|]. by destruct (list_find _ l) as [[]|].
Qed.

Lemma first_index_app_free {A} (p : A → bool) (l1 l2 : list A) :
  Forall (λ x, p x = false) l1 →
  first_index p (l1 ++ l2) = (λ i, length l1 + i) <$> first_index p l2.
Proof.
  induction 1 as [|x l1 Hx _ IH]; simpl.
  - by destruct (first_index p l2).
  - rewrite first_index_cons, Hx, IH. by destruct (first_index p l2).
Qed.

Lemma slice_assign_cons {A} (x : A) (l r : list A) (i : nat) :
  slice_assign (x :: l) (S i) (S i + 1) r = x :: slice_assign l i (i + 1) r.
Proof.
  unfold slice_assign.
  by replace (S i `max` (S i + 1)) with (S (i `max` (i + 1))) by lia.
Qed.

Lemma slice_assign_app {A} (l1 l r : list A) (i : nat) :
  slice_assign (l1 ++ l) (length l1 + i) (length l1 + i + 1) r
  = l1 ++ slice_assign l i (i + 1) r.
Proof.
  unfold slice_assign.
  replace ((length l1 + i) `max` (length l1 + i + 1))
    with (length l1 + (i `max` (i + 1))) by lia.
  by rewrite take_app_add, drop_app_add, <- app_assoc.
Qed.

Section flat_groups.
Context (gm : gmap string (list UTTERANCE_PATTERN)).

Lemma aligned_spans_cover up groups :
  aligned gm up groups → spans_cover up groups.
Proof.
  unfold spans_cover, span_sum.
  induction 1 as [|token name up groups _ IH|chunk name up groups _ _ _ IH];
    simpl; [done|lia|]. rewrite length_app. lia.
Qed.

Lemma aligned_default up : aligned gm up (default_group_sequence up).
Proof.
  unfold default_group_sequence.
  induction up as [|token up IH]; simpl; by constructor.
Qed.

Lemma group_tokens_free up :
  Forall (λ token, gm !! token = None) up → group_tokens gm up = 0.
Proof.
  unfold group_tokens. induction 1 as [|token up Htok _ IH]; [done|].
  rewrite filter_cons_False; [done|]. rewrite Htok. by intros [].
Qed.

Lemma group_tokens_app up1 up2 :
  group_tokens gm (up1 ++ up2) = group_tokens gm up1 + group_tokens gm up2.
Proof. unfold group_tokens. by rewrite filter_app, length_app. Qed.

Lemma group_tokens_cons_key token up :
  is_Some (gm !! token) → group_tokens gm (token :: up) = S (group_tokens gm up).
Proof. intros Hkey. unfold group_tokens. by rewrite filter_cons_True. Qed.

Lemma group_tokens_zero up :
  group_tokens gm up = 0 → _get_map_match_index up gm = None.
Proof.
  intros Hzero. apply map_match_index_None.
  apply Forall_forall. intros token Hin.
  destruct (gm !! token) as [v|] eqn:Htok; [|done].
  apply length_zero_iff_nil in Hzero.
  destruct (filter_nil_not_elem_of _ _ token Hzero); [|done].
  by rewrite Htok.
Qed.

(** Replacing the first group name by a pattern of plain tokens removes one
    group name. *)
Lemma group_tokens_rewrite up index token gp :
  _get_map_match_index up gm = Some index → up !! index = Some token →
  Forall (λ t, gm !! t = None) gp →
  S (group_tokens gm (slice_assign up index (index + 1) gp)) = group_tokens gm up.
Proof.
  intros Hidx Htok Hgp.
  pose proof (first_index_take _ _ _ Hidx) as Hbefore.
  pose proof Hidx as (x & Hx & Hkey & _)%first_index_Some.
  rewrite Htok in Hx. injection Hx as <-.
  apply bool_decide_eq_true in Hkey.
  rewrite <- (take_drop_middle up index token Htok) at 2.
  unfold slice_assign. replace (index `max` (index + 1)) with (S index) by lia.
  rewrite !group_tokens_app, (group_tokens_free gp Hgp).
  assert (group_tokens gm (take index up) = 0) as ->.
  { apply group_tokens_free. eapply Forall_impl; [exact Hbefore|].
    intros t Ht. simpl in Ht. apply bool_decide_eq_false in Ht.
    by apply eq_None_not_Some. }
  rewrite (group_tokens_cons_key token) by done. lia.
Qed.

(** The group index found for the first group name is the entry of the
    name itself, and the rewrite keeps the alignment. *)
Lemma current_group_index_aligned up groups :
  aligned gm up groups →
  ∀ index token base cur_index,
    _get_map_match_index up gm = Some index → up !! index = Some token →
    ∃ gi,
      current_group_index_loop (base + index) cur_index base groups
        = Ok (cur_index + gi) ∧
      ∀ gp, gp ≠ [] → Forall (λ t, gm !! t = None) gp →
            aligned gm (slice_assign up index (index + 1) gp)
                       (slice_assign groups gi (gi + 1) [(token, length gp)]).
Proof.
  intros Hal. unfold _get_map_match_index.
  induction Hal as [|t name up groups Hal IH|chunk name up groups Hchunk Hplain Hal IH];
    intros index token base cur_index Hidx Htok.
  - done.
  - rewrite first_index_cons in Hidx.
    destruct (bool_decide (is_Some (gm !! t))) eqn:Hkey.
    + injection Hidx as <-. injection Htok as ->. exists 0. split.
      * simpl. replace (base <? base + 0) with false
          by (symmetry; apply Nat.ltb_ge; lia).
        f_equal. lia.
      * intros gp Hne Hfree. unfold slice_assign. simpl. by constructor.
    + destruct (first_index _ up) as [i|] eqn:Hi; [|done].
      injection Hidx as <-. simpl in Htok.
      destruct (IH i token (base + 1) (cur_index + 1) eq_refl Htok)
        as (gi & Hloop & Hnew).
      exists (S gi). split.
      * simpl. replace (base <? base + S i) with true
          by (symmetry; apply Nat.ltb_lt; lia).
        replace (base + S i) with (base + 1 + i) by lia.
        rewrite Hloop. f_equal. lia.
      * intros gp Hne Hfree. rewrite !slice_assign_cons.
        constructor. by apply Hnew.
  - assert (Forall (λ x, bool_decide (is_Some (gm !! x)) = false) chunk) as Hchunk'.
    { eapply Forall_impl; [exact Hplain|]. intros x Hx. simpl.
      apply bool_decide_eq_false. by rewrite Hx; intros []. }
    rewrite (first_index_app_free _ _ _ Hchunk') in Hidx.
    destruct (first_index _ up) as [i|] eqn:Hi; [|done].
    injection Hidx as <-.
    rewrite lookup_app_r in Htok by lia.
    replace (length chunk + i - length chunk) with i in Htok by lia.
    assert (0 < length chunk) as Hlen by (destruct chunk; [done|simpl; lia]).
    destruct (IH i token (base + length chunk) (cur_index + 1) eq_refl Htok)
      as (gi & Hloop & Hnew).
    exists (S gi). split.
    + simpl. replace (base <? base + (length chunk + i)) with true
        by (symmetry; apply Nat.ltb_lt; lia).
      replace (base + (length chunk + i)) with (base + length chunk + i) by lia.
      rewrite Hloop. f_equal. lia.
    + intros gp Hne Hfree. rewrite slice_assign_app, slice_assign_cons.
      constructor; [done..|]. by apply Hnew.
Qed.
End flat_groups.

Section flat_expansion.
Context (gm : gmap string (list UTTERANCE_PATTERN)).
Hypothesis gm_flat : flat_group_map gm.

Lemma Forall2_fmap_same {A B C} (P : B → C → Prop) (f : A → B) (g : A → C)
    (l : list A) :
  Forall (λ x, P (f x) (g x)) l → Forall2 P (f <$> l) (g <$> l).
Proof. induction 1; simpl; by constructor. Qed.

(** One rewrite of an aligned pair succeeds, gives aligned pairs and uses up
    one group name. *)
Lemma expand_groups_pattern_aligned up groups n :
  aligned gm up groups → group_tokens gm up ≤ S n →
  ∃ ps gs, expand_groups_pattern up groups gm = Ok (ps, gs) ∧
           Forall2 (aligned gm) ps gs ∧
           Forall (λ p, group_tokens gm p ≤ n) ps.
Proof.
  intros Hal Hcount. unfold expand_groups_pattern.
  destruct (_get_map_match_index up gm) as [index|] eqn:Hidx.
  - pose proof Hidx as (token & Htok & Hkey & _)%first_index_Some.
    apply bool_decide_eq_true in Hkey as [gps Hgps].
    destruct (current_group_index_aligned gm up groups Hal index token 0 0 Hidx Htok)
      as (gi & Hloop & Hnew).
    unfold _get_current_group_index. simpl in Hloop.
    rewrite (py_index_Ok _ _ _ Htok). cbn [outcome_bind].
    rewrite Hloop. cbn [outcome_bind]. unfold py_getitem. rewrite Hgps.
    cbn [outcome_bind]. eexists _, _. split; [done|]. split.
    + apply Forall2_fmap_same, Forall_forall. intros gp Hgp.
      destruct (gm_flat _ _ _ Hgps Hgp) as [Hne Hplain]. by apply Hnew.
    + apply Forall_fmap, Forall_forall. intros gp Hgp. simpl.
      destruct (gm_flat _ _ _ Hgps Hgp) as [Hne Hplain].
      pose proof (group_tokens_rewrite gm up index token gp Hidx Htok Hplain).
      lia.
  - eexists _, _. split; [done|]. split; [by repeat constructor|].
    repeat constructor. apply map_match_index_None in Hidx.
    rewrite (group_tokens_free gm up Hidx). lia.
Qed.

Lemma expand_groups_loop_aligned ups gps n :
  Forall2 (aligned gm) ups gps → Forall (λ up, group_tokens gm up ≤ S n) ups →
  ∃ ps gs, expand_groups_loop ups gps gm = Ok (ps, gs) ∧
           Forall2 (aligned gm) ps gs ∧
           Forall (λ p, group_tokens gm p ≤ n) ps.
Proof.
  induction 1 as [|up groups ups gps Hal _ IH]; intros Hcount.
  - simpl. eexists _, _. by repeat split; constructor.
  - apply Forall_cons in Hcount as [Hup Hups].
    destruct (expand_groups_pattern_aligned up groups n Hal Hup)
      as (a & b & Hhead & Hab & Ha).
    destruct (IH Hups) as (c & d & Htail & Hcd & Hc).
    simpl. rewrite Hhead, Htail. cbn [outcome_bind fst snd].
    eexists _, _. split; [done|]. split.
    + by apply Forall2_app.
    + by apply Forall_app.
Qed.

Lemma expand_groups_recursive_aligned n :
  ∀ fuel ups gps,
    n ≤ fuel → Forall2 (aligned gm) ups gps →
    Forall (λ up, group_tokens gm up ≤ n) ups →
    ∃ ps gs, _expand_groups_recursive fuel ups gps gm = Ok (ps, gs) ∧
             Forall2 (aligned gm) ps gs.
Proof.
  induction n as [|n IH]; intros fuel ups gps Hfuel Hal Hcount.
  - rewrite expand_groups_recursive_no_match; [by eexists _, _|].
    eapply Forall_impl; [exact Hcount|]. intros up Hup. simpl in Hup.
    apply group_tokens_zero. lia.
  - rewrite expand_groups_recursive_unfold.
    destruct (negb _); [by eexists _, _|].
    destruct fuel as [|fuel]; [lia|].
    destruct (expand_groups_loop_aligned ups gps n Hal Hcount)
      as (ps & gs & Hloop & Hal' & Hcount').
    rewrite Hloop. cbn [outcome_bind fst snd].
    apply IH; [lia|done..].
Qed.

(** X2: with groups made of plain tokens the spans of every group sequence
    add up to the length of its pattern: initially, after every rewrite
    pass, and in the result, which is reached within as many passes as the
    longest pattern has tokens. *)
Theorem expand_groups_flat_spans_cover ups fuel :
  Forall (λ up, length up ≤ fuel) ups →
  Forall2 spans_cover ups (default_groups ups) ∧
  (∀ ups' gps', Forall2 (aligned gm) ups' gps' →
      ∃ ps gs, expand_groups_loop ups' gps' gm = Ok (ps, gs) ∧
               Forall2 (aligned gm) ps gs ∧ Forall2 spans_cover ps gs) ∧
  ∃ ps gs, _expand_groups_recursive fuel ups (default_groups ups) gm = Ok (ps, gs) ∧
           Forall2 spans_cover ps gs.
Proof.
  intros Hlen.
  assert (Forall2 (aligned gm) ups (default_groups ups)) as Hstart.
  { rewrite default_groups_sequences.
    induction ups as [|up ups' IH]; simpl; constructor.
    - apply aligned_default.
    - apply IH. by apply Forall_cons in Hlen as [_ ?]. }
  assert (∀ ps gs, Forall2 (aligned gm) ps gs → Forall2 spans_cover ps gs) as Hcover.
  { intros ps gs Hal. eapply Forall2_impl; [exact Hal|].
    apply aligned_spans_cover. }
  split; [by apply Hcover|]. split.
  - intros ups' gps' Hal.
    destruct (expand_groups_loop_aligned ups' gps'
                (list_max (group_tokens gm <$> ups')) Hal)
      as (ps & gs & Hloop & Hal' & _).
    { apply Forall_forall. intros up Hup.
      assert (group_tokens gm up ≤ list_max (group_tokens gm <$> ups')); [|lia].
      pose proof (proj1 (list_max_le (group_tokens gm <$> ups')
                                     (list_max (group_tokens gm <$> ups')))
                        (le_n _)) as Hmax.
      rewrite List.Forall_forall in Hmax. apply Hmax.
      apply list_elem_of_In, list_elem_of_fmap. by exists up. }
    exists ps, gs. repeat split; [done..|]. by apply Hcover.
  - destruct (expand_groups_recursive_aligned fuel fuel ups (default_groups ups))
      as (ps & gs & Hrun & Hal); [done..| |].
    { eapply Forall_impl; [exact Hlen|]. intros up Hup. simpl in Hup.
      unfold group_tokens. etrans; [apply length_filter|done]. }
    exists ps, gs. split; [done|]. by apply Hcover.
Qed.
End flat_expansion.

(** ** Termination of the range expander

    When no pattern starts with a range token and no range token allows
    zero copies, every pass removes one range token from each pattern that
    has one, and patterns never come to start with a range token. *)

Section range_termination.
Context `{RangeSyntax}.

Lemma range_tokens_free up : range_free up → range_tokens up = 0.
Proof.
  unfold range_tokens. induction 1 as [|token up Htok _ IH]; [done|].
  rewrite filter_cons_False; [done|]. by rewrite Htok.
Qed.

Lemma range_tokens_app up1 up2 :
  range_tokens (up1 ++ up2) = range_tokens up1 + range_tokens up2.
Proof. unfold range_tokens. by rewrite filter_app, length_app. Qed.

Lemma range_tokens_cons_match token up :
  range_regex_match token = true →
  range_tokens (token :: up) = S (range_tokens up).
Proof. intros Hm. unfold range_tokens. by rewrite filter_cons_True. Qed.

Lemma range_tokens_zero up : range_tokens up = 0 → range_free up.
Proof.
  intros Hzero. apply Forall_forall. intros token Hin.
  destruct (range_regex_match token) eqn:Htok; [|done].
  apply length_zero_iff_nil in Hzero.
  by destruct (filter_nil_not_elem_of _ _ token Hzero).
Qed.

Lemma with_copies_range_tokens up i token prev v :
  _get_regex_match_index up = Some i → 0 < i →
  up !! i = Some token → up !! (i - 1) = Some prev →
  S (range_tokens (with_copies up i prev v)) = range_tokens up.
Proof.
  intros Hidx Hpos Htok Hprev.
  pose proof (first_index_take _ _ _ Hidx) as Hbefore.
  pose proof Hidx as (x & Hx & Hm & Hlt)%first_index_Some.
  rewrite Htok in Hx. injection Hx as <-.
  rewrite <- (take_drop_middle up i token Htok) at 2.
  unfold with_copies. rewrite !range_tokens_app.
  replace (i + 1) with (S i) by lia.
  rewrite (range_tokens_free (take (i - 1) up)), (range_tokens_free (take i up)),
    (range_tokens_free (replicate _ prev)).
  - rewrite (range_tokens_cons_match token) by done. lia.
  - apply Forall_replicate. apply (Hlt (i - 1)); [done|lia].
  - done.
  - replace (i - 1) with ((i - 1) `min` i) by lia.
    rewrite <- take_take. by apply Forall_take.
Qed.

Lemma with_copies_expandable up i token prev v :
  _get_regex_match_index up = Some i → 0 < i →
  up !! i = Some token → up !! (i - 1) = Some prev →
  expandable up → (1 ≤ v)%Z → expandable (with_copies up i prev v).
Proof.
  intros Hidx Hpos Htok Hprev [Hhead Hcounts] Hv.
  apply first_index_Some in Hidx as (_ & _ & _ & Hlt).
  assert (range_regex_match prev = false) as Hprev_plain
    by (apply (Hlt (i - 1)); [done|lia]).
  unfold with_copies. split.
  - destruct (i - 1) as [|k] eqn:Hk.
    + rewrite take_0. simpl. destruct (Z.to_nat v) as [|n] eqn:Hn; [lia|].
      simpl. by intros t [= <-].
    + destruct up as [|t0 up]; [done|]. simpl. intros t [= <-].
      by apply Hhead.
  - rewrite !Forall_app. repeat split.
    + by apply Forall_take.
    + apply Forall_replicate. by rewrite Hprev_plain.
    + by apply Forall_drop.
Qed.

Lemma handle_ranges_pattern_expandable up n :
  expandable up → range_tokens up ≤ S n →
  ∃ r, handle_ranges_pattern up = Ok r ∧
       Forall (λ p, expandable p ∧ range_tokens p ≤ n) r.
Proof.
  intros Hexp Hcount.
  destruct (_get_regex_match_index up) as [i|] eqn:Hidx.
  - pose proof Hidx as (token & Htok & Hm & _)%first_index_Some.
    assert (0 < i) as Hpos.
    { destruct i; [|lia]. destruct up as [|t up]; [done|].
      injection Htok as ->. destruct Hexp as [Hhead _].
      rewrite (Hhead token) in Hm; done. }
    destruct (lookup_lt_is_Some_2 up (i - 1)) as [prev Hprev].
    { apply lookup_lt_Some in Htok. lia. }
    assert (repeats_at_least_once token) as Honce.
    { destruct Hexp as [_ Hcounts]. rewrite Forall_forall in Hcounts.
      apply Hcounts; [|done]. by eapply list_elem_of_lookup_2. }
    assert (∀ v, (1 ≤ v)%Z →
              expandable (with_copies up i prev v) ∧
              range_tokens (with_copies up i prev v) ≤ n) as Hsibling.
    { intros v Hv. split; [by eapply with_copies_expandable|].
      pose proof (with_copies_range_tokens up i token prev v Hidx Hpos Htok Hprev).
      lia. }
    unfold repeats_at_least_once in Honce.
    destruct (parse_range_token token) as [[lo|] hi] eqn:Hparse.
    + erewrite handle_ranges_pattern_bounded by done.
      eexists. split; [done|]. apply Forall_fmap, Forall_forall.
      intros v Hv. apply elem_of_seqZ in Hv. apply Hsibling. lia.
    + erewrite handle_ranges_pattern_fixed by done.
      eexists. split; [done|]. apply Forall_singleton. by apply Hsibling.
  - unfold handle_ranges_pattern. rewrite Hidx. eexists. split; [done|].
    apply Forall_singleton. split; [done|].
    apply regex_match_index_None in Hidx. rewrite (range_tokens_free _ Hidx). lia.
Qed.

Lemma handle_ranges_loop_expandable ups n :
  Forall (λ up, expandable up ∧ range_tokens up ≤ S n) ups →
  ∃ r, handle_ranges_loop ups = Ok r ∧
       Forall (λ p, expandable p ∧ range_tokens p ≤ n) r.
Proof.
  induction 1 as [|up ups [Hexp Hcount] _ (r & Hr & Hall)]; simpl.
  - by eexists.
  - destruct (handle_ranges_pattern_expandable up n Hexp Hcount) as (r0 & -> & Hall0).
    rewrite Hr. cbn [outcome_bind]. eexists. split; [done|]. by apply Forall_app.
Qed.

(** X1: the range expander returns, with no range token left, on every
    input whose patterns do not start with a range token and have no range
    token allowing zero copies; as many passes as the longest pattern has
    tokens are enough. *)
Theorem handle_ranges_terminates ups fuel :
  Forall (λ up, expandable up ∧ length up ≤ fuel) ups →
  ∃ r, _handle_ranges fuel ups = Ok r ∧ Forall range_free r.
Proof.
  intros Hups.
  assert (Forall (λ up, expandable up ∧ range_tokens up ≤ fuel) ups) as Hstart.
  { eapply Forall_impl; [exact Hups|]. intros up [Hexp Hlen]. split; [done|].
    unfold range_tokens. etrans; [apply length_filter|done]. }
  clear Hups. revert ups Hstart.
  induction fuel as [|fuel IH]; intros ups Hstart.
  - assert (Forall range_free ups) as Hfree.
    { eapply Forall_impl; [exact Hstart|]. intros up [_ Hzero].
      apply range_tokens_zero. lia. }
    rewrite handle_ranges_no_match by done. by eexists.
  - rewrite handle_ranges_unfold.
    destruct (negb _) eqn:Hany.
    + eexists. split; [done|]. apply any_patterns_match_regex_false.
      by apply negb_true_iff.
    + destruct (handle_ranges_loop_expandable ups fuel Hstart) as (r & -> & Hall).
      cbn [outcome_bind]. by apply IH.
Qed.
End range_termination.

(** ** The supplementary results at work *)

Lemma expand_groups_flat_spans_cover_witness :
  ∃ ps gs,
    _expand_groups_recursive 4 [["A"; "G"; "B"; "G"]]
      (default_groups [["A"; "G"; "B"; "G"]]) {["G" := [["P"; "Q"]]]} = Ok (ps, gs) ∧
    Forall2 spans_cover ps gs.
Proof.
  apply (expand_groups_flat_spans_cover {["G" := [["P"; "Q"]]]}).
  - intros name gps gp Hname Hgp.
    apply lookup_singleton_Some in Hname as [<- <-].
    apply list_elem_of_singleton in Hgp as ->.
    split; [done|]. repeat constructor.
  - repeat constructor.
Defined.

Lemma handle_ranges_terminates_witness :
  ∃ r, _handle_ranges 4 [["X"; "RANGE(2,4)"; "Y"; "RANGE(3)"]] = Ok r ∧
       Forall range_free r.
Proof.
  apply handle_ranges_terminates. repeat constructor.
  - by intros token [= <-].
  - discriminate.
  - intros _. unfold repeats_at_least_once. simpl. lia.
  - discriminate.
  - intros _. unfold repeats_at_least_once. simpl. lia.
Defined.

Example handle_ranges_two_ranges :
  _handle_ranges 2 [["X"; "RANGE(2,4)"; "Y"; "RANGE(3)"]]
  = Ok [["X"; "X"; "Y"; "Y"; "Y"]; ["X"; "X"; "X"; "Y"; "Y"; "Y"]].
Proof. reflexivity. Qed.

Example expand_groups_two_uses :
  _expand_groups 2 grouped_grammar [["A"; "G"; "B"; "G"]]
  = Ok ([["A"; "P"; "Q"; "B"; "P"; "Q"]],
        [[("None", 1); ("G", 2); ("None", 1); ("G", 2)]]).
Proof. vm_compute. reflexivity. Qed.

Example base_grammar_utterances :
  (triples <- generate_utterance_combo_tokens_and_groups 1 base_grammar None ;;
   traverse (λ t : COMBO * list string * list GROUP,
               generate_utterances_and_handled_tokens t.1.1 t.1.2 None) triples)
  = Ok [[("he went he went he went",
          ["[START(he went)]"; "[START(he went)]"; "[START(he went)]"]);
         ("he went he went she went",
          ["[START(he went)]"; "[START(he went)]"; "[START(she went)]"]);
         ("he went she went he went",
          ["[START(he went)]"; "[START(she went)]"; "[START(he went)]"]);
         ("he went she went she went",
          ["[START(he went)]"; "[START(she went)]"; "[START(she went)]"]);
         ("she went he went he went",
          ["[START(she went)]"; "[START(he went)]"; "[START(he went)]"]);
         ("she went he went she went",
          ["[START(she went)]"; "[START(he went)]"; "[START(she went)]"]);
         ("she went she went he went",
          ["[START(she went)]"; "[START(she went)]"; "[START(he went)]"]);
         ("she went she went she went",
          ["[START(she went)]"; "[START(she went)]"; "[START(she went)]"])]].
Proof. vm_compute. reflexivity. Qed.

(** * Further properties of the module *)

(** ** Range expander: results, composition *)

Section range_results.
Context `{RangeSyntax}.

Lemma handle_ranges_loop_free ups :
  Forall range_free ups → handle_ranges_loop ups = Ok ups.
Proof.
  induction 1 as [|up ups Hup _ IH]; simpl; [done|].
  unfold handle_ranges_pattern.
  rewrite (proj2 (regex_match_index_None up) Hup). simpl. by rewrite IH.
Qed.

Lemma any_patterns_match_regex_app ups1 ups2 :
  _any_patterns_match_regex (ups1 ++ ups2)
  = _any_patterns_match_regex ups1 || _any_patterns_match_regex ups2.
Proof. unfold _any_patterns_match_regex. apply existsb_app. Qed.

Lemma handle_ranges_Ok_free fuel ups r :
  _handle_ranges fuel ups = Ok r → Forall range_free r.
Proof.
  revert ups. induction fuel as [|fuel IH]; intros ups;
    rewrite handle_ranges_unfold;
    destruct (negb _) eqn:Hany;
    try (intros [= <-]; apply any_patterns_match_regex_false;
         by apply negb_true_iff); try done.
  destruct (handle_ranges_loop ups) as [l| |]; simpl; [|done..]. apply IH.
Qed.


(** X4: the patterns are expanded independently of each other, and the
    results keep the order of the input: expanding a concatenation gives
    the concatenation of the expansions. *)
Theorem handle_ranges_app fuel ups1 ups2 r1 r2 :
  _handle_ranges fuel ups1 = Ok r1 → _handle_ranges fuel ups2 = Ok r2 →
  _handle_ranges fuel (ups1 ++ ups2) = Ok (r1 ++ r2).
Proof.
  revert ups1 ups2. induction fuel as [|fuel IH]; intros ups1 ups2;
    rewrite !handle_ranges_unfold, any_patterns_match_regex_app;
    destruct (_any_patterns_match_regex ups1) eqn:H1;
    destruct (_any_patterns_match_regex ups2) eqn:H2; simpl;
    try done; try (by intros [= <-] [= <-]).
  - destruct (handle_ranges_loop_total ups1) as [l1 Hl1].
    destruct (handle_ranges_loop_total ups2) as [l2 Hl2].
    rewrite Hl1, Hl2, (handle_ranges_loop_app _ _ _ _ Hl1 Hl2). simpl.
    apply IH.
  - apply any_patterns_match_regex_false in H2.
    destruct (handle_ranges_loop_total ups1) as [l1 Hl1].
    rewrite Hl1, (handle_ranges_loop_app _ _ _ _ Hl1 (handle_ranges_loop_free _ H2)).
    simpl. intros Hr1 [= <-]. apply IH; [done|].
    by apply handle_ranges_no_match.
  - apply any_patterns_match_regex_false in H1.
    destruct (handle_ranges_loop_total ups2) as [l2 Hl2].
    rewrite Hl2, (handle_ranges_loop_app _ _ _ _ (handle_ranges_loop_free _ H1) Hl2).
    simpl. intros [= <-] Hr2. apply IH; [|done].
    by apply handle_ranges_no_match.
Qed.
End range_results.


Lemma handle_ranges_app_witness :
  _handle_ranges 2 ([["X"; "RANGE(2,4)"]] ++ [["Y"; "RANGE(3)"]; ["Z"]])
  = Ok ([["X"; "X"]; ["X"; "X"; "X"]] ++ [["Y"; "Y"; "Y"]; ["Z"]]).
Proof.
  apply (handle_ranges_app 2 [["X"; "RANGE(2,4)"]] [["Y"; "RANGE(3)"]; ["Z"]]);
    reflexivity.
Defined.

(** ** Group expander: the group index, results, a single use *)

Lemma current_group_index_loop_spec rest :
  ∀ token_index cur_index cur_sum,
    match current_group_index_loop token_index cur_index cur_sum rest with
    | Ok j =>
        cur_index ≤ j ≤ cur_index + length rest ∧
        token_index ≤ cur_sum + span_sum (take (j - cur_index) rest) ∧
        ∀ k, k < j - cur_index → cur_sum + span_sum (take k rest) < token_index
    | Raise e => e = IndexError ∧ cur_sum + span_sum rest < token_index
    | OutOfFuel => False
    end.
Proof.
  unfold span_sum.
  induction rest as [|[name span] rest IH]; intros token_index cur_index cur_sum;
    cbn [current_group_index_loop];
    destruct (Nat.ltb_spec cur_sum token_index) as [Hlt|Hlt].
  - split; [done|]. simpl. lia.
  - replace (cur_index - cur_index) with 0 by lia. simpl.
    repeat split; try lia.
  - specialize (IH token_index (cur_index + 1) (cur_sum + span)).
    destruct (current_group_index_loop _ _ _ rest) as [j|e|]; [| |done].
    + destruct IH as (Hj & Hsum & Hleast).
      replace (j - cur_index) with (S (j - (cur_index + 1))) by lia. simpl.
      repeat split; try lia.
      intros [|k] Hk; simpl; [lia|].
      specialize (Hleast k). lia.
    + destruct IH as [-> Hsum]. split; [done|]. simpl. lia.
  - replace (cur_index - cur_index) with 0 by lia. simpl.
    repeat split; try lia.
Qed.

(** X5: [_get_current_group_index] returns the least number [j] of leading
    group entries whose spans add up to at least the token index, and
    raises [IndexError] exactly when all the spans together stay below the
    token index. *)
Theorem get_current_group_index_least token_index groups :
  (∀ j, _get_current_group_index token_index groups = Ok j →
        j ≤ length groups ∧
        token_index ≤ span_sum (take j groups) ∧
        ∀ k, k < j → span_sum (take k groups) < token_index) ∧
  (_get_current_group_index token_index groups = Raise IndexError ↔
   span_sum groups < token_index) ∧
  (token_index ≤ span_sum groups →
   ∃ j, _get_current_group_index token_index groups = Ok j).
Proof.
  unfold _get_current_group_index.
  pose proof (current_group_index_loop_spec groups token_index 0 0) as Hspec.
  destruct (current_group_index_loop token_index 0 0 groups) as [j|e|];
    [| |done].
  - destruct Hspec as (Hj & Hsum & Hleast).
    replace (j - 0) with j in * by lia.
    assert (span_sum (take j groups) ≤ span_sum groups) as Hmono.
    { rewrite <- (take_drop j groups) at 2. unfold span_sum.
      rewrite sum_list_with_app. lia. }
    split; [|split].
    + intros j' [= <-]. repeat split; [lia..|].
      intros k Hk. specialize (Hleast k Hk). lia.
    + split; [done|]. simpl in *. lia.
    + by eexists.
  - destruct Hspec as [-> Hsum]. simpl in Hsum. split; [done|]. split.
    + done.
    + lia.
Qed.

Lemma get_current_group_index_least_witness :
  _get_current_group_index 3 [("None", 1); ("G", 2); ("None", 1)] = Ok 2 ∧
  _get_current_group_index 5 [("None", 1); ("G", 2); ("None", 1)] = Raise IndexError.
Proof.
  destruct (get_current_group_index_least 3 [("None", 1); ("G", 2); ("None", 1)])
    as (_ & _ & Hin).
  destruct (get_current_group_index_least 5 [("None", 1); ("G", 2); ("None", 1)])
    as (_ & Hout & _).
  split.
  - destruct Hin as [j Hj]; [vm_compute; lia|]. rewrite Hj.
    revert Hj. vm_compute. done.
  - apply Hout. vm_compute. lia.
Defined.

Lemma current_group_index_loop_default i :
  ∀ n cur_index cur_sum,
    i ≤ n →
    current_group_index_loop (cur_sum + i) cur_index cur_sum
                             (replicate n ("None", 1))
    = Ok (cur_index + i).
Proof.
  induction i as [|i IH]; intros n cur_index cur_sum Hle.
  - destruct n; cbn [replicate current_group_index_loop];
      destruct (Nat.ltb_spec cur_sum (cur_sum + 0)); try lia; f_equal; lia.
  - destruct n as [|n]; [lia|]. cbn [replicate current_group_index_loop].
    destruct (Nat.ltb_spec cur_sum (cur_sum + S i)); [|lia]. simpl.
    replace (cur_sum + S i) with (cur_sum + 1 + i) by lia.
    rewrite IH by lia. f_equal. lia.
Qed.

Lemma elem_of_zip_fmap_same {A B C} (f : A → B) (g : A → C) (l : list A) (x : A) :
  x ∈ l → (f x, g x) ∈ zip (f <$> l) (g <$> l).
Proof.
  induction 1 as [|x y l _ IH]; simpl; [apply list_elem_of_here|].
  by apply list_elem_of_further.
Qed.

Section group_results.
Context (gm : gmap string (list UTTERANCE_PATTERN)).

(** X6: a pattern whose only group name is the token at index [i], for a
    group whose patterns hold no group name, is rewritten in one pass: for
    every pattern of the group, in order, the name is replaced by the
    pattern, and the default group sequence gets the entry
    [(name, length of the pattern)] at index [i]. *)
Theorem expand_groups_single_use up i token gps fuel :
  _get_map_match_index up gm = Some i → up !! i = Some token →
  gm !! token = Some gps →
  Forall (λ t, gm !! t = None) (drop (S i) up) →
  Forall (Forall (λ t, gm !! t = None)) gps →
  _expand_groups_recursive (S fuel) [up] (default_groups [up]) gm
  = Ok ((λ gp, take i up ++ gp ++ drop (S i) up) <$> gps,
        (λ gp : UTTERANCE_PATTERN,
           replicate i ("None", 1) ++ (token, length gp)
             :: replicate (length up - S i) ("None", 1)) <$> gps).
Proof.
  intros Hidx Htok Hgps Hrest Hplain.
  pose proof (first_index_take _ _ _ Hidx) as Hbefore.
  pose proof (lookup_lt_Some _ _ _ Htok) as Hlt.
  rewrite expand_groups_recursive_unfold.
  assert (_any_pattern_token_in_group_map [up] gm = true) as ->.
  { simpl. by rewrite Hidx. }
  cbn [negb]. rewrite default_groups_sequences.
  cbn [fmap list_fmap expand_groups_loop]. unfold expand_groups_pattern.
  rewrite Hidx, (py_index_Ok _ _ _ Htok). cbn [outcome_bind].
  unfold _get_current_group_index, default_group_sequence.
  pose proof (current_group_index_loop_default i (length up) 0 0) as Hgi.
  simpl in Hgi. rewrite Hgi by lia.
  cbn [outcome_bind]. unfold py_getitem. rewrite Hgps.
  cbn [outcome_bind fst snd]. rewrite !app_nil_r.
  unfold slice_assign. replace (i `max` (i + 1)) with (S i) by lia.
  rewrite take_replicate, drop_replicate.
  replace (i `min` length up) with i by lia. simpl.
  apply expand_groups_recursive_no_match.
  apply Forall_fmap, Forall_forall. intros gp Hgp. simpl.
  apply map_match_index_None. rewrite !Forall_app. repeat split.
  - eapply Forall_impl; [exact Hbefore|]. intros t Ht. simpl in Ht.
    apply bool_decide_eq_false in Ht. by apply eq_None_not_Some.
  - rewrite Forall_forall in Hplain. by apply Hplain.
  - done.
Qed.

Lemma expand_groups_pattern_not_KeyError up groups k :
  expand_groups_pattern up groups gm ≠ Raise (KeyError k).
Proof.
  unfold expand_groups_pattern.
  destruct (_get_map_match_index up gm) as [i|] eqn:Hidx; [|done].
  pose proof Hidx as (token & Htok & Hkey & _)%first_index_Some.
  apply bool_decide_eq_true in Hkey as [gps Hgps].
  rewrite (py_index_Ok _ _ _ Htok). cbn [outcome_bind].
  unfold _get_current_group_index.
  pose proof (current_group_index_loop_spec groups i 0 0) as Hspec.
  destruct (current_group_index_loop i 0 0 groups) as [j|e|]; [| |done].
  - cbn [outcome_bind]. unfold py_getitem. by rewrite Hgps.
  - destruct Hspec as [-> _]. done.
Qed.

Lemma expand_groups_loop_not_KeyError ups gps k :
  expand_groups_loop ups gps gm ≠ Raise (KeyError k).
Proof.
  revert gps. induction ups as [|up ups IH]; intros [|g gps]; simpl; try done.
  pose proof (expand_groups_pattern_not_KeyError up g k) as Hhead.
  destruct (expand_groups_pattern up g gm) as [a|e|]; simpl; [| |done].
  - specialize (IH gps).
    destruct (expand_groups_loop ups gps gm) as [b|e|]; simpl; [done| |done].
    intros [= ->]. done.
  - intros [= ->]. done.
Qed.

(** X7: whenever [_expand_groups_recursive] returns, no token of the
    returned patterns is a group name, the returned sequences are parallel
    when the given ones are, and another run returns them unchanged; and it
    never raises [KeyError]. *)
Theorem expand_groups_recursive_result fuel ups gps :
  (∀ k, _expand_groups_recursive fuel ups gps gm ≠ Raise (KeyError k)) ∧
  (∀ ps gs,
      _expand_groups_recursive fuel ups gps gm = Ok (ps, gs) →
      Forall (Forall (λ token, gm !! token = None)) ps ∧
      (length ups = length gps → length ps = length gs) ∧
      ∀ fuel', _expand_groups_recursive fuel' ps gs gm = Ok (ps, gs)).
Proof.
  split.
  - intros k. revert ups gps. induction fuel as [|fuel IH]; intros ups gps;
      rewrite expand_groups_recursive_unfold; destruct (negb _); try done.
    pose proof (expand_groups_loop_not_KeyError ups gps k) as Hloop.
    destruct (expand_groups_loop ups gps gm) as [[ps gs]|e|]; simpl; [| |done].
    + apply IH.
    + intros [= ->]. done.
  - revert ups gps. induction fuel as [|fuel IH]; intros ups gps ps gs;
      rewrite expand_groups_recursive_unfold;
      destruct (negb _) eqn:Hany; try done.
    + intros [= <- <-]. apply negb_true_iff in Hany.
      apply any_pattern_token_in_group_map_false in Hany as Hnone.
      split; [|split; [done|]].
      * eapply Forall_impl; [exact Hnone|]. intros up Hup.
        by apply map_match_index_None.
      * intros fuel'. by apply expand_groups_recursive_no_match.
    + intros [= <- <-]. apply negb_true_iff in Hany.
      apply any_pattern_token_in_group_map_false in Hany as Hnone.
      split; [|split; [done|]].
      * eapply Forall_impl; [exact Hnone|]. intros up Hup.
        by apply map_match_index_None.
      * intros fuel'. by apply expand_groups_recursive_no_match.
    + destruct (expand_groups_loop ups gps gm) as [[ps' gs']|e|] eqn:Hloop;
        simpl; [|done..].
      intros Hrec. destruct (IH _ _ _ _ Hrec) as (Hfree & Hlen & Hagain).
      split; [done|]. split; [|done]. intros _. apply Hlen.
      by apply (expand_groups_loop_keeps _ _ _ _ _ Hloop).
Qed.

Lemma expand_groups_pattern_keeps_name up groups a b name group_patterns group_pattern :
  (∀ n gps, gm !! n = Some gps → gps ≠ []) →
  gm !! name = Some group_patterns → group_pattern ∈ group_patterns →
  name ∈ group_pattern →
  expand_groups_pattern up groups gm = Ok (a, b) → name ∈ up →
  ∃ up' groups', (up', groups') ∈ zip a b ∧ name ∈ up'.
Proof.
  intros Hnonempty Hname Hgp Hself. unfold expand_groups_pattern.
  destruct (_get_map_match_index up gm) as [i|] eqn:Hidx.
  - pose proof Hidx as (token & Htok & _)%first_index_Some.
    rewrite (py_index_Ok _ _ _ Htok). cbn [outcome_bind].
    destruct (_get_current_group_index i groups) as [gi| |]; simpl; [|done..].
    unfold py_getitem. destruct (gm !! token) as [gps|] eqn:Hgps; simpl; [|done].
    intros [= <- <-] Hin.
    destruct (decide (token = name)) as [->|Hne].
    + rewrite Hname in Hgps. injection Hgps as <-.
      eexists _, _. split; [by apply elem_of_zip_fmap_same|].
      unfold slice_assign. rewrite !elem_of_app. auto.
    + destruct gps as [|gp0 gps]; [by destruct (Hnonempty _ _ Hgps)|].
      eexists _, _. split; [apply (elem_of_zip_fmap_same _ _ _ gp0), list_elem_of_here|].
      rewrite <- (take_drop_middle up i token Htok) in Hin.
      apply elem_of_app in Hin as [Hin|Hin].
      * unfold slice_assign. rewrite !elem_of_app. auto.
      * apply elem_of_cons in Hin as [->|Hin]; [done|].
        unfold slice_assign. replace (i `max` (i + 1)) with (S i) by lia.
        rewrite !elem_of_app. auto.
  - intros [= <- <-] Hin. exists up, groups. split; [|done].
    simpl. apply list_elem_of_here.
Qed.

(** X8: a group whose pattern holds its own name is expanded for ever: if
    some utterance pattern holds the name (and every group has at least one
    pattern), [_expand_groups_recursive] returns no result, whatever the
    recursion depth allowed. *)
Theorem expand_groups_recursive_self_reference
    fuel ups gps name group_patterns group_pattern up groups :
  (∀ n patterns, gm !! n = Some patterns → patterns ≠ []) →
  gm !! name = Some group_patterns → group_pattern ∈ group_patterns →
  name ∈ group_pattern →
  (up, groups) ∈ zip ups gps → name ∈ up →
  ∀ r, _expand_groups_recursive fuel ups gps gm ≠ Ok r.
Proof.
  intros Hnonempty Hname Hgp Hself. revert ups gps up groups.
  assert (∀ ups gps ps gs up groups,
            expand_groups_loop ups gps gm = Ok (ps, gs) →
            (up, groups) ∈ zip ups gps → name ∈ up →
            ∃ up' groups', (up', groups') ∈ zip ps gs ∧ name ∈ up') as Hpass.
  { induction ups as [|up0 ups IH]; intros [|g0 gps] ps gs up groups; simpl;
      try (by intros _ ?%elem_of_nil).
    destruct (expand_groups_pattern up0 g0 gm) as [[a b]| |] eqn:Hhead;
      simpl; [|done..].
    destruct (expand_groups_loop ups gps gm) as [[c d]| |] eqn:Htail;
      simpl; [|done..].
    intros [= <- <-] Hin Hup.
    pose proof (expand_groups_pattern_lengths _ _ _ _ _ Hhead) as Hlen.
    apply elem_of_cons in Hin as [[= -> ->]|Hin].
    - destruct (expand_groups_pattern_keeps_name _ _ _ _ _ _ _
                  Hnonempty Hname Hgp Hself Hhead Hup) as (up' & g' & Hin' & Hup').
      exists up', g'. split; [|done].
      rewrite zip_with_app by done. apply elem_of_app. by left.
    - destruct (IH gps c d up groups Htail Hin Hup) as (up' & g' & Hin' & Hup').
      exists up', g'. split; [|done].
      rewrite zip_with_app by done. apply elem_of_app. by right. }
  induction fuel as [|fuel IH]; intros ups gps up groups Hin Hup r;
    rewrite expand_groups_recursive_unfold;
    assert (_any_pattern_token_in_group_map ups gm = true) as ->;
    try done;
    try (apply existsb_true_elem with up; [by eapply elem_of_zip_l|];
         apply bool_decide_eq_true;
         destruct (_get_map_match_index up gm) eqn:Hidx; [done|];
         apply map_match_index_None in Hidx; rewrite Forall_forall in Hidx;
         by rewrite (Hidx name Hup) in Hname).
  cbn [negb].
  destruct (expand_groups_loop ups gps gm) as [[ps gs]| |] eqn:Hloop;
    simpl; [|done..].
  destruct (Hpass _ _ _ _ _ _ Hloop Hin Hup) as (up' & g' & Hin' & Hup').
  by eapply IH.
Qed.
End group_results.

Lemma expand_groups_single_use_witness :
  _expand_groups_recursive 1 [["A"; "G"; "B"]] (default_groups [["A"; "G"; "B"]])
                           {["G" := [["P"; "Q"]; ["R"]]]}
  = Ok ([["A"; "P"; "Q"; "B"]; ["A"; "R"; "B"]],
        [[("None", 1); ("G", 2); ("None", 1)]; [("None", 1); ("G", 1); ("None", 1)]]).
Proof.
  apply (expand_groups_single_use {["G" := [["P"; "Q"]; ["R"]]]}
           ["A"; "G"; "B"] 1 "G" [["P"; "Q"]; ["R"]] 0).
  - reflexivity.
  - reflexivity.
  - reflexivity.
  - repeat constructor.
  - repeat constructor.
Defined.

Lemma expand_groups_recursive_result_witness :
  Forall (Forall (λ token, ({["G" := [["P"; "Q"]]]} : gmap string (list UTTERANCE_PATTERN))
                             !! token = None))
         [["A"; "P"; "Q"]; ["B"]] ∧
  length [["A"; "P"; "Q"]; ["B"]]
  = length [[("None", 1); ("G", 2)]; [("None", 1)]] ∧
  _expand_groups_recursive 0 [["A"; "P"; "Q"]; ["B"]]
    [[("None", 1); ("G", 2)]; [("None", 1)]] {["G" := [["P"; "Q"]]]}
  = Ok ([["A"; "P"; "Q"]; ["B"]], [[("None", 1); ("G", 2)]; [("None", 1)]]).
Proof.
  destruct (proj2 (expand_groups_recursive_result {["G" := [["P"; "Q"]]]} 3
                     [["A"; "G"]; ["B"]] (default_groups [["A"; "G"]; ["B"]]))
              [["A"; "P"; "Q"]; ["B"]] [[("None", 1); ("G", 2)]; [("None", 1)]])
    as (Hfree & Hlen & Hagain); [vm_compute; reflexivity|].
  split; [exact Hfree|]. split; [apply Hlen; reflexivity | exact (Hagain 0)].
Defined.

Lemma expand_groups_recursive_self_reference_witness :
  _expand_groups_recursive 100 [["B"]; ["G"]] (default_groups [["B"]; ["G"]])
                           {["G" := [["A"; "G"]]]} = OutOfFuel.
Proof.
  destruct (_expand_groups_recursive 100 [["B"]; ["G"]]
              (default_groups [["B"]; ["G"]]) {["G" := [["A"; "G"]]]})
    as [r|e|] eqn:Hrun.
  - destruct (expand_groups_recursive_self_reference {["G" := [["A"; "G"]]]}
                100 [["B"]; ["G"]] (default_groups [["B"]; ["G"]])
                "G" [["A"; "G"]] ["A"; "G"] ["G"] [("None", 1)]) with r.
    + intros n patterns Hn. apply lookup_singleton_Some in Hn as [_ <-]. done.
    + reflexivity.
    + repeat constructor.
    + repeat constructor.
    + repeat constructor.
    + repeat constructor.
    + exact Hrun.
  - revert Hrun. vm_compute. discriminate.
  - reflexivity.
Defined.

(** ** Token pattern resolver: base items, base tokens, the static map *)

Lemma list_to_map_app_fresh {V} (a b : list (string * V)) (k : string) (v : V) :
  k ∉ a.*1 → (list_to_map (a ++ (k, v) :: b) : gmap string V) !! k = Some v.
Proof.
  induction a as [|[k' v'] a IH]; simpl; intros Hk.
  - apply lookup_insert_eq.
  - apply not_elem_of_cons in Hk as [Hne Hk].
    rewrite lookup_insert_ne by done. by apply IH.
Qed.

Lemma dict_of_items_last {V} (l1 l2 : list (string * V)) (k : string) (v : V) :
  k ∉ l2.*1 → dict_of_items (l1 ++ (k, v) :: l2) !! k = Some v.
Proof.
  intros Hk. unfold dict_of_items.
  rewrite reverse_app, reverse_cons, <- app_assoc. simpl.
  apply list_to_map_app_fresh. by rewrite fmap_reverse, elem_of_reverse.
Qed.

(** X9: [_get_base_item_map] raises [KeyError] when the pattern definition
    has no such key; otherwise the map holds exactly the declared names,
    each with the pattern of its last declaration. *)
Theorem get_base_item_map_lookup (pd : pattern_def) :
  (groups pd = None → _get_base_item_map pd "groups" = Raise (KeyError "groups")) ∧
  (base_tokens pd = None →
   _get_base_item_map pd "base_tokens" = Raise (KeyError "base_tokens")) ∧
  (∀ base_key items,
      (base_key = "groups" ∧ groups pd = Some items) ∨
      (base_key = "base_tokens" ∧ base_tokens pd = Some items) →
      ∃ m, _get_base_item_map pd base_key = Ok m ∧
           (∀ name, m !! name = None ↔ name ∉ items.*1) ∧
           (∀ l1 l2 name pattern,
               items = l1 ++ (name, pattern) :: l2 → name ∉ l2.*1 →
               m !! name = Some pattern)).
Proof.
  unfold _get_base_item_map, pattern_def_items. split; [|split].
  - intros ->. reflexivity.
  - intros ->. reflexivity.
  - intros base_key items [[-> Hitems]|[-> Hitems]]; simpl; rewrite Hitems;
      simpl; eexists; (split; [done|]); split.
    + apply dict_of_items_lookup_None.
    + intros l1 l2 name pattern -> Hfresh. by apply dict_of_items_last.
    + apply dict_of_items_lookup_None.
    + intros l1 l2 name pattern -> Hfresh. by apply dict_of_items_last.
Qed.

Lemma get_base_item_map_lookup_witness :
  ∃ m, _get_base_item_map base_grammar "base_tokens" = Ok m ∧
       m !! "PRONOUNS" = Some ["he"; "she"] ∧ m !! "VERBS" = None ∧
       _get_base_item_map base_grammar "groups" = Raise (KeyError "groups").
Proof.
  destruct (get_base_item_map_lookup base_grammar) as (Hnone & _ & Hsome).
  destruct (Hsome "base_tokens" [("PRONOUNS", ["he"; "she"])])
    as (m & Hm & Habsent & Hlast); [right; split; reflexivity|].
  exists m. split; [exact Hm|]. split; [|split].
  - apply (Hlast [] [] "PRONOUNS" ["he"; "she"]); [reflexivity|].
    simpl. apply not_elem_of_nil.
  - apply Habsent. compute_done.
  - apply Hnone. reflexivity.
Defined.

Section base_tokens.
Context (m : gmap string (list string)) (names : list string).
Hypothesis m_names : ∀ name, m !! name = None ↔ name ∉ names.

Lemma expand_pattern_spec (tp : list component) :
  match traverse (expand_component m) tp with
  | Ok r =>
      Forall (λ c, ∀ name, c = BaseToken name → name ∈ names) tp ∧
      tuple_of_component <$> r = resolve_component m <$> tp
  | Raise e => ∃ name, e = KeyError name ∧ BaseToken name ∈ tp ∧ name ∉ names
  | OutOfFuel => False
  end.
Proof.
  induction tp as [|c tp IH]; simpl; [by split|].
  destruct c as [name|phrases]; simpl.
  - unfold py_getitem. destruct (m !! name) as [ps|] eqn:Hname; simpl.
    + destruct (traverse _ tp) as [r|e|]; simpl; [| |done].
      * destruct IH as [Hdecl Heq]. split.
        -- constructor; [|done]. intros n [= <-].
           destruct (decide (name ∈ names)) as [|Hout]; [done|].
           apply m_names in Hout. congruence.
        -- by f_equal.
      * destruct IH as (n & -> & Hin & Hout).
        exists n. repeat split; [|done]. by apply list_elem_of_further.
    + exists name. repeat split; [apply list_elem_of_here|].
      by apply m_names.
  - destruct (traverse _ tp) as [r|e|]; simpl; [| |done].
    + destruct IH as [Hdecl Heq]. split; [by constructor|]. by f_equal.
    + destruct IH as (n & -> & Hin & Hout).
      exists n. repeat split; [|done]. by apply list_elem_of_further.
Qed.

Lemma expand_patterns_spec (tps : list (list component)) :
  match traverse (traverse (expand_component m)) tps with
  | Ok r =>
      base_tokens_declared names tps ∧
      _convert_token_patterns_to_tuples r
      = (λ tp : list component, resolve_component m <$> tp) <$> tps
  | Raise e => ∃ name tp, e = KeyError name ∧ tp ∈ tps ∧ BaseToken name ∈ tp ∧
                          name ∉ names
  | OutOfFuel => False
  end.
Proof.
  unfold base_tokens_declared, _convert_token_patterns_to_tuples.
  induction tps as [|tp tps IH]; simpl; [by split|].
  pose proof (expand_pattern_spec tp) as Htp.
  destruct (traverse _ tp) as [r0|e|]; simpl; [| |done].
  - destruct (traverse (traverse _) tps) as [r|e|]; simpl; [| |done].
    + destruct Htp as [Hdecl0 Heq0], IH as [Hdecl Heq].
      split; [by constructor|]. by f_equal.
    + destruct IH as (n & tp' & -> & Hin & Hc & Hout).
      exists n, tp'. repeat split; [|done..]. by apply list_elem_of_further.
  - destruct Htp as (n & -> & Hc & Hout).
    exists n, tp. repeat split; [|done..]. apply list_elem_of_here.
Qed.
End base_tokens.

(** X10: with base tokens declared, [_process_static_token_patterns]
    returns, for token patterns that name declared base tokens only, the
    patterns with every name replaced by the phrases of the base token; and
    when it fails, it raises [KeyError] for a base token that is named in
    the patterns and not declared. *)
Theorem process_static_token_patterns_base_tokens
    (pd : pattern_def) (items : list (string * list string))
    (tps : list (list component)) :
  base_tokens pd = Some items →
  (base_tokens_declared (items.*1) tps →
   _process_static_token_patterns pd tps
   = Ok ((λ tp : list component,
            resolve_component (dict_of_items items) <$> tp) <$> tps)) ∧
  (∀ r, _process_static_token_patterns pd tps = Ok r →
        base_tokens_declared (items.*1) tps) ∧
  (∀ e, _process_static_token_patterns pd tps = Raise e →
        ∃ name tp, e = KeyError name ∧ tp ∈ tps ∧ BaseToken name ∈ tp ∧
                   name ∉ items.*1) ∧
  _process_static_token_patterns pd tps ≠ OutOfFuel.
Proof.
  intros pd_base_tokens.
  unfold _process_static_token_patterns, _expand_base_tokens, _get_base_item_map,
    pattern_def_items.
  rewrite pd_base_tokens. cbn [String.eqb Ascii.eqb Bool.eqb outcome_bind].
  pose proof (expand_patterns_spec (dict_of_items items) (items.*1)
                (dict_of_items_lookup_None items) tps) as Hspec.
  change (traverse (traverse _) tps)
    with (traverse (traverse (expand_component (dict_of_items items))) tps).
  destruct (traverse (traverse _) tps) as [r|e|]; cbn [outcome_bind]; [| |done].
  - destruct Hspec as [Hdecl Heq]. repeat split; try done.
    intros _. by rewrite Heq.
  - destruct Hspec as (n & tp & -> & Hin & Hc & Hout). repeat split; try done.
    + intros Hdecl. unfold base_tokens_declared in Hdecl.
      rewrite Forall_forall in Hdecl. specialize (Hdecl tp Hin).
      rewrite Forall_forall in Hdecl. by destruct Hout; eapply Hdecl.
    + intros e' [= <-]. by exists n, tp.
Qed.

Lemma process_static_token_patterns_base_tokens_witness :
  _process_static_token_patterns base_grammar
    [[BaseToken "PRONOUNS"; Phrases ["went"]]; [Phrases ["left"]]]
  = Ok [[["he"; "she"]; ["went"]]; [["left"]]].
Proof.
  apply (proj1 (process_static_token_patterns_base_tokens base_grammar
                  [("PRONOUNS", ["he"; "she"])]
                  [[BaseToken "PRONOUNS"; Phrases ["went"]]; [Phrases ["left"]]]
                  eq_refl)).
  unfold base_tokens_declared.
  repeat (apply Forall_cons; split); try (by apply List.Forall_nil);
    intros name [= <-]; compute_done.
Defined.

Lemma static_entries_spec (pd : pattern_def)
    (items : list (string * list (list component)))
    (entries : list (string * list TOKEN_PATTERN)) :
  traverse (λ kv : string * list (list component),
              v <- _process_static_token_patterns pd kv.2 ;; Ok (kv.1, v))
           items = Ok entries →
  Forall2 (λ kv e, e.1 = kv.1 ∧ _process_static_token_patterns pd kv.2 = Ok e.2)
          items entries.
Proof.
  intros Htr%traverse_Forall2. eapply Forall2_impl; [exact Htr|].
  intros [k tps] [k' v]. simpl.
  destruct (_process_static_token_patterns pd tps); simpl; [|done..].
  by intros [= <- <-].
Qed.

Lemma traverse_Raise {A B} (f : A → outcome B) (l : list A) (e : exn) :
  traverse f l = Raise e → ∃ x, x ∈ l ∧ f x = Raise e.
Proof.
  induction l as [|x l IH]; simpl; [done|].
  destruct (f x) as [y|e'|] eqn:Hx; simpl; [| |done].
  - destruct (traverse f l) as [ys|e'|]; simpl; [done| |done].
    intros [= ->]. destruct IH as (x' & Hin & Hx'); [done|].
    exists x'. split; [by apply list_elem_of_further|done].
  - intros [= ->]. exists x. split; [apply list_elem_of_here|done].
Qed.

(** X11: when [_get_static_token_patterns_map] returns, its map holds
    exactly the tokens declared under the [static] keys, each with the
    processed token patterns of its last declaration; nothing comes from
    entries without a [static] key.  When it raises, the error is the one
    of processing one of the declared token patterns. *)
Theorem get_static_token_patterns_map_lookup (pd : pattern_def) :
  (∀ m, _get_static_token_patterns_map pd = Ok m →
        (∀ token, m !! token = None ↔ token ∉ (static_items pd).*1) ∧
        (∀ l1 l2 token tps,
            static_items pd = l1 ++ (token, tps) :: l2 → token ∉ l2.*1 →
            ∃ v, _process_static_token_patterns pd tps = Ok v ∧
                 m !! token = Some v) ∧
        (Forall (λ ttm, static ttm = None) (token_patterns pd) → m = ∅)) ∧
  (∀ e, _get_static_token_patterns_map pd = Raise e →
        ∃ token tps, (token, tps) ∈ static_items pd ∧
                     _process_static_token_patterns pd tps = Raise e).
Proof.
  unfold _get_static_token_patterns_map. split.
  - intros m.
    destruct (traverse _ (static_items pd)) as [entries| |] eqn:Htr;
      simpl; [|done..].
    intros [= <-]. apply static_entries_spec in Htr.
    assert (∀ items entries,
              Forall2 (λ (kv : string * list (list component))
                         (e : string * list TOKEN_PATTERN),
                         e.1 = kv.1 ∧
                         _process_static_token_patterns pd kv.2 = Ok e.2)
                      items entries →
              entries.*1 = items.*1) as Hkeys.
    { clear. induction 1 as [|???? [Hk _]]; [done|]. simpl. by f_equal. }
    split; [|split].
    + intros token. by rewrite dict_of_items_lookup_None, (Hkeys _ _ Htr).
    + intros l1 l2 token tps Hitems Hfresh. rewrite Hitems in Htr.
      apply Forall2_app_inv_l in Htr as (e1 & e2' & H1 & H2 & ->).
      apply Forall2_cons_inv_l in H2 as ([token' v] & e2 & [Hk Hv] & H2 & ->).
      simpl in Hk, Hv. subst token'. exists v. split; [done|].
      apply dict_of_items_last. by rewrite (Hkeys _ _ H2).
    + intros Hnone.
      assert (static_items pd = []) as Hempty.
      { unfold static_items. revert Hnone. generalize (token_patterns pd).
        induction 1 as [|ttm l Hs _ IH]; [done|]. simpl. by rewrite Hs. }
      rewrite Hempty in Htr. by inversion Htr.
  - intros e.
    destruct (traverse _ (static_items pd)) as [entries|e'|] eqn:Htr;
      simpl; [done| |done].
    intros [= ->]. apply traverse_Raise in Htr as ([token tps] & Hin & Hx).
    exists token, tps. split; [done|]. simpl in Hx.
    destruct (_process_static_token_patterns pd tps); simpl in Hx; congruence.
Qed.

Lemma get_static_token_patterns_map_lookup_witness :
  ∃ m, _get_static_token_patterns_map hi_grammar = Ok m ∧
       m !! "B" = Some [[["there"]]; [["world"]]] ∧ m !! "C" = None.
Proof.
  destruct (proj1 (get_static_token_patterns_map_lookup hi_grammar)
              {["A" := [[["hi"]]]; "B" := [[["there"]]; [["world"]]]]})
    as (Hnone & Hlast & _); [vm_compute; reflexivity|].
  exists {["A" := [[["hi"]]]; "B" := [[["there"]]; [["world"]]]]}.
  split; [vm_compute; reflexivity|]. split.
  - destruct (Hlast [("A", [[Phrases ["hi"]]])] [] "B"
                    [[Phrases ["there"]]; [Phrases ["world"]]])
      as (v & Hv & Hm); [reflexivity|apply not_elem_of_nil|].
    rewrite Hm. f_equal. revert Hv. vm_compute. by intros [= <-].
  - apply Hnone. compute_done.
Defined.

Section resolver_errors.
Context `{RangeSyntax}.



End resolver_errors.


(** ** The entry points *)

Lemma py_getitem_Ok {V} (d : gmap string V) (k : string) (v : V) :
  d !! k = Some v → py_getitem d k = Ok v.
Proof. unfold py_getitem. by intros ->. Qed.

Lemma py_getitem_KeyError {V} (d : gmap string V) (k : string) :
  d !! k = None → py_getitem d k = Raise (KeyError k).
Proof. unfold py_getitem. by intros ->. Qed.

Lemma lookup_tokens_spec (tpm : TOKEN_PATTERNS_MAP) (up : UTTERANCE_PATTERN) :
  match traverse (py_getitem tpm) up with
  | Ok r => length r = length up ∧ Forall (λ token, is_Some (tpm !! token)) up
  | Raise e => ∃ k, e = KeyError k ∧ k ∈ up ∧ tpm !! k = None
  | OutOfFuel => False
  end.
Proof.
  induction up as [|token up IH]; cbn [traverse]; [by split|].
  destruct (tpm !! token) as [v|] eqn:Htok;
    [rewrite (py_getitem_Ok _ _ _ Htok) | rewrite (py_getitem_KeyError _ _ Htok)];
    cbn [outcome_bind].
  - destruct (traverse (py_getitem tpm) up) as [r|e|]; cbn [outcome_bind];
      [| |done].
    + destruct IH as [Hlen Hall]. split; [simpl; by f_equal|]. by constructor.
    + destruct IH as (k & -> & Hin & Hk). exists k.
      repeat split; [|done]. by apply list_elem_of_further.
  - exists token. repeat split; [apply list_elem_of_here|done].
Qed.

Lemma entry_triples_spec (tpm : TOKEN_PATTERNS_MAP)
    (pgs : list (UTTERANCE_PATTERN * list GROUP)) :
  match traverse (λ pg : UTTERANCE_PATTERN * list GROUP,
                    expanded_utterance_pattern <- traverse (py_getitem tpm) pg.1 ;;
                    Ok (_compute_utterance_combo expanded_utterance_pattern,
                        pg.1, pg.2)) pgs with
  | Ok triples =>
      (λ t : COMBO * list string * list GROUP, (t.1.2, t.2)) <$> triples = pgs ∧
      Forall (λ t : COMBO * list string * list GROUP,
                length t.1.1 = length t.1.2 ∧
                Forall (λ token, is_Some (tpm !! token)) t.1.2) triples
  | Raise e => ∃ k pg, e = KeyError k ∧ pg ∈ pgs ∧ k ∈ pg.1 ∧ tpm !! k = None
  | OutOfFuel => False
  end.
Proof.
  induction pgs as [|[up g] pgs IH]; cbn [traverse fst snd]; [by split|].
  pose proof (lookup_tokens_spec tpm up) as Hup.
  destruct (traverse (py_getitem tpm) up) as [eup|e|]; cbn [outcome_bind];
    [| |done].
  - destruct (traverse _ pgs) as [triples|e|]; cbn [outcome_bind]; [| |done].
    + destruct Hup as [Hlen Hall], IH as [Hmap Htriples].
      split; [simpl; by f_equal|]. constructor; [|done]. simpl.
      split; [|done]. unfold _compute_utterance_combo. by rewrite length_fmap.
    + destruct IH as (k & pg & -> & Hin & Hk & Hnone).
      exists k, pg. repeat split; [|done..]. by apply list_elem_of_further.
  - destruct Hup as (k & -> & Hin & Hnone).
    exists k, (up, g). repeat split; [|done..]. apply list_elem_of_here.
Qed.

Section entry_results.
Context `{RangeSyntax}.

(** X13: once the token patterns map, the range expansion and the group
    expansion have returned, the first entry point yields one triple per
    expanded pattern, in order, holding the pattern as its tokens and the
    groups of the pattern, with one combo position per token, all tokens
    being keys of the token patterns map; it does so when every token of
    the expanded patterns is a key of the map, and otherwise the only
    failure is [KeyError] for a token of a pattern that is not a key. *)
Theorem entry_point_triples fuel pd dyn tpm ups ps gs :
  _get_token_patterns_map pd dyn = Ok tpm →
  _handle_ranges fuel (utterance_patterns pd) = Ok ups →
  _expand_groups fuel pd ups = Ok (ps, gs) →
  let result := generate_utterance_combo_tokens_and_groups fuel pd dyn in
  (∀ triples, result = Ok triples →
      (λ t : COMBO * list string * list GROUP, (t.1.2, t.2)) <$> triples = zip ps gs ∧
      Forall (λ t : COMBO * list string * list GROUP,
                length t.1.1 = length t.1.2 ∧
                Forall (λ token, is_Some (tpm !! token)) t.1.2) triples) ∧
  (∀ e, result = Raise e →
      ∃ k up, e = KeyError k ∧ up ∈ ps ∧ k ∈ up ∧ tpm !! k = None) ∧
  result ≠ OutOfFuel ∧
  (Forall (Forall (λ token, is_Some (tpm !! token))) ps →
   ∃ triples, result = Ok triples).
Proof.
  intros Htpm Hups Hexp result. subst result.
  unfold generate_utterance_combo_tokens_and_groups.
  rewrite Htpm, Hups. cbn [outcome_bind]. rewrite Hexp. cbn [outcome_bind fst snd].
  pose proof (entry_triples_spec tpm (zip ps gs)) as Hspec.
  destruct (traverse _ (zip ps gs)) as [triples|e|]; [| |done].
  - split; [|split; [|split]]; try done.
    + by intros triples' [= <-].
    + intros _. by eexists.
  - destruct Hspec as (k & [up g] & -> & Hin & Hk & Hnone). simpl in Hk.
    apply elem_of_zip_l in Hin. split; [|split; [|split]]; try done.
    + intros e' [= <-]. by exists k, up.
    + intros Hall. rewrite Forall_forall in Hall. specialize (Hall up Hin).
      rewrite Forall_forall in Hall. destruct (Hall k Hk) as [v Hv]. congruence.
Qed.

Lemma expand_groups_pattern_range_free (gm : gmap string (list UTTERANCE_PATTERN))
    up groups a b :
  (∀ name gps, gm !! name = Some gps → Forall range_free gps) →
  range_free up → expand_groups_pattern up groups gm = Ok (a, b) →
  Forall range_free a.
Proof.
  intros Hgm Hup. unfold expand_groups_pattern.
  destruct (_get_map_match_index up gm) as [i|];
    [|by intros [= <- <-]; constructor].
  destruct (py_index up i) as [token| |]; simpl; [|done..].
  destruct (_get_current_group_index i groups) as [gi| |]; simpl; [|done..].
  unfold py_getitem. destruct (gm !! token) as [gps|] eqn:Hgps; simpl; [|done].
  intros [= <- <-]. apply Forall_fmap, Forall_forall. intros gp Hgp. simpl.
  specialize (Hgm _ _ Hgps). rewrite Forall_forall in Hgm.
  unfold slice_assign, range_free. rewrite !Forall_app. repeat split.
  - by apply Forall_take.
  - by apply Hgm.
  - by apply Forall_drop.
Qed.

Lemma expand_groups_recursive_range_free (gm : gmap string (list UTTERANCE_PATTERN))
    fuel ups gps ps gs :
  (∀ name patterns, gm !! name = Some patterns → Forall range_free patterns) →
  Forall range_free ups →
  _expand_groups_recursive fuel ups gps gm = Ok (ps, gs) →
  Forall range_free ps ∧ Forall (Forall (λ token, gm !! token = None)) ps.
Proof.
  intros Hgm.
  assert (∀ ups gps ps gs, Forall range_free ups →
            expand_groups_loop ups gps gm = Ok (ps, gs) →
            Forall range_free ps) as Hpass.
  { clear ups gps ps gs.
    induction ups as [|up ups IH]; intros [|g gps] ps gs Hups; simpl;
      try (by intros [= <- <-]; constructor).
    apply Forall_cons in Hups as [Hup Hups].
    destruct (expand_groups_pattern up g gm) as [[a b]| |] eqn:Hhead;
      simpl; [|done..].
    destruct (expand_groups_loop ups gps gm) as [[c d]| |] eqn:Htail;
      simpl; [|done..].
    intros [= <- <-]. apply Forall_app. split.
    - by eapply expand_groups_pattern_range_free.
    - by eapply IH. }
  revert ups gps. induction fuel as [|fuel IH]; intros ups gps Hups;
    rewrite expand_groups_recursive_unfold;
    destruct (negb _) eqn:Hany; try done;
    try (intros [= <- <-]; split; [done|];
         apply negb_true_iff, any_pattern_token_in_group_map_false in Hany;
         eapply Forall_impl; [exact Hany|];
         by intros up ?%map_match_index_None).
  destruct (expand_groups_loop ups gps gm) as [[ps' gs']| |] eqn:Hloop;
    simpl; [|done..].
  apply IH. by eapply Hpass.
Qed.

(** X14: the token sequences yielded by the first entry point are fully
    expanded: they hold no range token and no group name. *)
Theorem entry_point_tokens_expanded fuel pd dyn triples combo tokens groups_ :
  generate_utterance_combo_tokens_and_groups fuel pd dyn = Ok triples →
  (combo, tokens, groups_) ∈ triples →
  range_free tokens ∧
  ∀ items, groups pd = Some items → Forall (λ token, token ∉ items.*1) tokens.
Proof.
  unfold generate_utterance_combo_tokens_and_groups.
  destruct (_get_token_patterns_map pd dyn) as [tpm| |]; simpl; [|done..].
  destruct (_handle_ranges fuel (utterance_patterns pd)) as [ups| |] eqn:Hups;
    simpl; [|done..].
  destruct (_expand_groups fuel pd ups) as [[ps gs]| |] eqn:Hexp; simpl; [|done..].
  intros Htr Hin.
  pose proof (entry_triples_spec tpm (zip ps gs)) as Hspec.
  rewrite Htr in Hspec. destruct Hspec as [Hmap _].
  assert (tokens ∈ ps) as Htokens.
  { apply (elem_of_zip_l tokens groups_ ps gs). rewrite <- Hmap.
    apply list_elem_of_fmap. by exists (combo, tokens, groups_). }
  apply handle_ranges_Ok_free in Hups.
  unfold _expand_groups in Hexp.
  destruct (groups pd) as [items|] eqn:Hgroups.
  - unfold _get_base_item_map, pattern_def_items in Hexp.
    rewrite Hgroups in Hexp. cbn [String.eqb Ascii.eqb Bool.eqb outcome_bind] in Hexp.
    destruct (dict_traverse _ (dict_of_items items)) as [gm| |] eqn:Hgm;
      simpl in Hexp; [|done..].
    destruct (expand_groups_recursive_range_free gm fuel ups (default_groups ups)
                ps gs) as [Hfree Hplain]; [|done|done|].
    { intros name patterns Hname.
      pose proof (dict_traverse_lookup _ _ _ name Hgm) as Hlookup.
      destruct (dict_of_items items !! name) as [p|]; [|congruence].
      destruct Hlookup as (v' & Hv' & Hname'). rewrite Hname in Hname'.
      injection Hname' as <-. by eapply handle_ranges_Ok_free. }
    rewrite Forall_forall in Hfree, Hplain. split; [by apply Hfree|].
    intros items' [= <-]. eapply Forall_impl; [by apply Hplain|].
    intros token Htok. by apply (expanded_group_map_keys fuel items gm).
  - injection Hexp as <- <-. rewrite Forall_forall in Hups.
    split; [by apply Hups|]. done.
Qed.
End entry_results.

Lemma entry_point_triples_witness :
  ∃ triples,
    generate_utterance_combo_tokens_and_groups 0 hi_grammar None = Ok triples ∧
    (λ t : COMBO * list string * list GROUP, (t.1.2, t.2)) <$> triples
    = [(["A"; "B"], [("None", 1); ("None", 1)])].
Proof.
  destruct (entry_point_triples 0 hi_grammar None
              {["A" := [[["hi"]]]; "B" := [[["there"]]; [["world"]]]]}
              [["A"; "B"]] [["A"; "B"]] [[("None", 1); ("None", 1)]])
    as (Hok & _ & _ & Hall); [vm_compute; reflexivity|reflexivity|reflexivity|].
  destruct Hall as [triples Htriples].
  { repeat (apply Forall_cons; split); try (by apply List.Forall_nil);
      by eexists. }
  exists triples. split; [exact Htriples|]. apply (Hok triples Htriples).
Defined.

Lemma entry_point_tokens_expanded_witness :
  range_free ["P"; "Q"] ∧ Forall (λ token, token ∉ ["G"]) ["P"; "Q"].
Proof.
  destruct (entry_point_tokens_expanded 2 grouped_grammar
              (Some {["A" := [[["a"]]]; "B" := [[["b"]]];
                      "P" := [[["p"]]]; "Q" := [[["q"]]]]})
              [([["p"]; ["q"]], ["P"; "Q"], [("G", 2)]);
               ([["a"]; ["b"]], ["A"; "B"], [("None", 1); ("None", 1)])]
              [["p"]; ["q"]] ["P"; "Q"] [("G", 2)])
    as [Hfree Hplain]; [vm_compute; reflexivity|constructor|].
  split; [exact Hfree|]. exact (Hplain [("G", ["P"; "Q"])] eq_refl).
Defined.

(** ** Second entry point with a token for every position *)

Lemma selected_phrases_in_range combo indices :
  indices_in_range combo indices →
  Forall2 (λ (phrase : string) (component : list string), phrase ∈ component)
          (selected_phrases combo indices) combo.
Proof.
  unfold selected_phrases.
  induction 1 as [|c i combo indices Hi _ IH]; simpl; constructor; [|done].
  destruct (lookup_lt_is_Some_2 c i Hi) as [x Hx]. rewrite Hx. simpl.
  by eapply list_elem_of_lookup_2.
Qed.

(** X15: with at least as many tokens as combo positions,
    [generate_utterances_and_handled_tokens] raises nothing and yields one
    pair per index tuple of the joiner, in order: the utterance is the join
    of one phrase of every position, and the handled tokens are, position
    by position, the token's handler applied to the token and the selected
    phrase. *)
Theorem generate_pairs combo tokens thm :
  length combo ≤ length tokens →
  let index_tuples :=
    join_combo ((λ component : list string, seq 0 (length component)) <$> combo) in
  generate_utterances_and_handled_tokens combo tokens thm
  = Ok ((λ indices,
           let phrases := selected_phrases combo indices in
           (join_space phrases, handled_phrases tokens thm phrases))
          <$> index_tuples) ∧
  Forall (λ indices,
            let phrases := selected_phrases combo indices in
            Forall2 (λ (phrase : string) (component : list string),
                       phrase ∈ component) phrases combo ∧
            length (handled_phrases tokens thm phrases) = length combo ∧
            ∀ i token phrase,
              tokens !! i = Some token → phrases !! i = Some phrase →
              handled_phrases tokens thm phrases !! i
              = Some (_get_token_handler token thm token phrase))
         index_tuples.
Proof.
  intros Hlen index_tuples. subst index_tuples. split.
  - unfold generate_utterances_and_handled_tokens.
    rewrite materialize_in_range.
    + by rewrite take_ge.
    + apply Forall_forall. intros indices Hin.
      by apply join_combo_indices_in_range.
  - apply Forall_forall. intros indices Hin%join_combo_indices_in_range.
    pose proof (selected_phrases_in_range _ _ Hin) as Hphrases.
    split; [done|]. split.
    + unfold handled_phrases. rewrite length_zip_with.
      apply Forall2_length in Hphrases. lia.
    + intros i token phrase Htok Hphrase. unfold handled_phrases.
      rewrite lookup_zip_with, Htok. simpl. by rewrite Hphrase.
Qed.

Lemma generate_pairs_witness :
  generate_utterances_and_handled_tokens [["a"; "b"]; ["c"]] ["T"; "U"; "V"] None
  = Ok [("a c", ["[T(a)]"; "[U(c)]"]); ("b c", ["[T(b)]"; "[U(c)]"])].
Proof.
  destruct (generate_pairs [["a"; "b"]; ["c"]] ["T"; "U"; "V"] None)
    as [Hrun _]; [simpl; lia|].
  exact Hrun.
Defined.
